(** * Interval algebra of threeML/utils/interval.py

    A shallow embedding of the classes [Interval] and [IntervalSet] and the
    properties of their operations.

    Numbers.  The program stores Python floats and only ever compares them,
    takes the larger or the smaller of two, or (in [is_contiguous]) forms one
    difference and one product.  They are modelled as rationals [Q]: the
    comparisons of non-NaN floats are exact, so the order-theoretic behaviour
    is the one of the program; rounding in [np.allclose] and in [float] of a
    decimal literal is not modelled.

    Errors.  A Python exception is a value [Raise e] of the type [result];
    [e] is the class the source raises. *)

From Stdlib Require Import Ascii String.
From Stdlib Require Import Arith ZArith QArith Qminmax Qabs Lqa Lia.
From Stdlib Require Import List Bool.
From Stdlib Require Import Permutation Sorted.
Import ListNotations.

Open Scope Q_scope.

(** ** Exceptions and the error monad *)

Inductive exn : Type :=
| RuntimeError            (* Interval.__init__: stop < start *)
| IntervalsDoNotOverlap   (* subclass of RuntimeError *)
| IntervalsNotContiguous  (* subclass of RuntimeError *)
| AssertionError          (* a failed [assert] *)
| AttributeError          (* attribute lookup on an object that lacks it *)
| TypeError               (* itemgetter() without items, iterating a non-iterable *)
| IndexError              (* sequence index out of range *)
| ValueError.             (* float() of a malformed literal *)

Inductive result (A : Type) : Type :=
| Ok (a : A)
| Raise (e : exn).

Arguments Ok {A} a.
Arguments Raise {A} e.

Definition bind {A B : Type} (m : result A) (k : A -> result B) : result B :=
  match m with
  | Ok a => k a
  | Raise e => Raise e
  end.

Notation "x <- m ;; k" := (bind m (fun x => k))
  (at level 61, m at next level, right associativity).

(** ** Float comparisons, [max] and [min] *)

Definition Qltb (x y : Q) : bool := negb (Qle_bool y x).

(** Python's [max(a, b)] keeps [a] unless [b > a]; [min(a, b)] keeps [a]
    unless [b < a]. *)
Definition py_max (a b : Q) : Q := if Qltb a b then b else a.
Definition py_min (a b : Q) : Q := if Qltb b a then b else a.

(** ** class Interval *)

Module Interval.

Record t : Type := mk { start : Q; stop : Q }.

(** [Interval.__init__(start, stop, swap_if_inverted)] *)
Definition init (start stop : Q) (swap_if_inverted : bool) : result t :=
  if Qltb stop start then
    if swap_if_inverted then Ok (mk stop start)
    else Raise RuntimeError
  else Ok (mk start stop).

(** [cls.new] with the two positional arguments its callers pass. *)
Definition new (start stop : Q) : result t := init start stop false.

(** The invariant [__init__] establishes. *)
Definition valid (i : t) : Prop := start i <= stop i.

Definition validb (i : t) : bool := Qle_bool (start i) (stop i).

Definition overlaps_with (self interval : t) : bool :=
  if Qeq_bool (start interval) (start self)
     || Qeq_bool (stop interval) (stop self) then true
  else if Qltb (start self) (start interval)
          && Qltb (start interval) (stop self) then true
  else if Qltb (start self) (stop interval)
          && Qltb (stop interval) (stop self) then true
  else if Qltb (start interval) (start self)
          && Qltb (stop self) (stop interval) then true
  else false.

Definition intersect (self interval : t) : result t :=
  if negb (overlaps_with self interval) then Raise IntervalsDoNotOverlap
  else
    let new_start := py_max (start self) (start interval) in
    let new_stop := py_min (stop self) (stop interval) in
    new new_start new_stop.

Definition merge (self interval : t) : result t :=
  if overlaps_with self interval then
    let new_start := py_min (start self) (start interval) in
    let new_stop := py_max (stop self) (stop interval) in
    new new_start new_stop
  else Raise IntervalsDoNotOverlap.

(** [Interval.__eq__] between two intervals. *)
Definition eq (self other : t) : bool :=
  Qeq_bool (start self) (start other) && Qeq_bool (stop self) (stop other).


End Interval.

(** ** Python and numpy helpers used by IntervalSet *)

(** [enumerate(l)], counting from [n]. *)
Fixpoint enumerate_from {A : Type} (n : nat) (l : list A) : list (nat * A) :=
  match l with
  | [] => []
  | x :: l' => (n, x) :: enumerate_from (S n) l'
  end.

Definition enumerate {A : Type} (l : list A) : list (nat * A) :=
  enumerate_from 0 l.

(** [sorted(l, key=key)] and [l.sort()]: Python's sort is stable and compares
    with [<] only.  A stable insertion sort has the same result: an element
    goes in front of the first element of the sorted tail that is not
    strictly below it. *)
Fixpoint insert_by {A : Type} (key : A -> Q) (x : A) (l : list A) : list A :=
  match l with
  | [] => [x]
  | y :: l' =>
      if Qltb (key y) (key x) then y :: insert_by key x l'
      else x :: y :: l'
  end.

Definition py_sorted {A : Type} (key : A -> Q) (l : list A) : list A :=
  fold_right (insert_by key) [] l.

(** What [operator.itemgetter], given the items and then [obj], returns: the
    item itself when there is one index, a tuple when there are several. *)
Inductive got (A : Type) : Type :=
| One (x : A)
| Many (l : list A).

Arguments One {A} x.
Arguments Many {A} l.

Definition getitem {A : Type} (obj : list A) (i : nat) : result A :=
  match nth_error obj i with
  | Some x => Ok x
  | None => Raise IndexError
  end.

Fixpoint getitems {A : Type} (obj : list A) (items : list nat)
  : result (list A) :=
  match items with
  | [] => Ok []
  | i :: items' =>
      x <- getitem obj i ;;
      xs <- getitems obj items' ;;
      Ok (x :: xs)
  end.

(** [itemgetter()] with no item raises TypeError. *)
Definition itemgetter {A : Type} (items : list nat) (obj : list A)
  : result (got A) :=
  match items with
  | [] => Raise TypeError
  | [i] => x <- getitem obj i ;; Ok (One x)
  | _ => xs <- getitems obj items ;; Ok (Many xs)
  end.

(** [np.atleast_1d]: a scalar becomes an array of one element. *)
Definition atleast_1d {A : Type} (g : got A) : list A :=
  match g with
  | One x => [x]
  | Many l => l
  end.

(** [for x in g]: an Interval is not iterable. *)
Definition iterate {A : Type} (g : got A) : result (list A) :=
  match g with
  | One _ => Raise TypeError
  | Many l => Ok l
  end.

(** [l[-1]] *)
Definition last_item {A : Type} (l : list A) : result A :=
  match rev l with
  | [] => Raise IndexError
  | x :: _ => Ok x
  end.

(** [a.pop(index)] on a numpy array: the class has no [pop], and the
    attribute lookup raises before anything is taken off the array. *)
Definition ndarray_pop {A : Type} (a : list A) (index : Z)
  : result (list A * A) :=
  Raise AttributeError.

(** [bool(a)] of a numpy array of objects: an empty array is false, an array
    of one item has the truth of that item (true, for an object that defines
    neither [__nonzero__] nor [__len__]), a longer one raises ValueError. *)
Definition ndarray_bool {A : Type} (a : list A) : result bool :=
  match a with
  | [] => Ok false
  | [_] => Ok true
  | _ => Raise ValueError
  end.

(** [np.allclose(a, b, rtol=rtol)] with the default [atol = 1e-8], on two
    sequences of the same length: every pair has
    [|a - b| <= atol + rtol * |b|]. *)
Definition atol : Q := 1 # 100000000.

Definition isclose (rtol : Q) (a b : Q) : bool :=
  Qle_bool (Qabs (a - b)) (atol + rtol * Qabs b).

Definition allclose (a b : list Q) (rtol : Q) : bool :=
  forallb (fun p => isclose rtol (fst p) (snd p)) (combine a b).

(** [np.searchsorted(a, v)] (side "left") on an ascending array [a]: the
    index of the first element that is not below [v], [len(a)] when there is
    none. *)
Fixpoint searchsorted (a : list Q) (v : Q) : nat :=
  match a with
  | [] => 0%nat
  | x :: a' => if Qltb x v then S (searchsorted a' v) else 0%nat
  end.

(** [map(f, l)] where [f] may raise: the first exception wins. *)
Fixpoint mapM {A B : Type} (f : A -> result B) (l : list A) : result (list B) :=
  match l with
  | [] => Ok []
  | x :: l' =>
      y <- f x ;;
      ys <- mapM f l' ;;
      Ok (y :: ys)
  end.

(** [min(l)] and [max(l)] of a list: ValueError on the empty list, else the
    first item is kept until a later one is strictly below (above) it. *)
Definition py_min_list (l : list Q) : result Q :=
  match l with
  | [] => Raise ValueError
  | x :: l' => Ok (fold_left py_min l' x)
  end.

Definition py_max_list (l : list Q) : result Q :=
  match l with
  | [] => Raise ValueError
  | x :: l' => Ok (fold_left py_max l' x)
  end.

(** The position that the index [i] has in a list of [n] items: a negative
    index counts from the end; [None] when it is out of range. *)
Definition py_index (n : nat) (i : Z) : option nat :=
  if (i <? 0)%Z then
    if (i + Z.of_nat n <? 0)%Z then None
    else Some (Z.to_nat (i + Z.of_nat n))
  else if (i <? Z.of_nat n)%Z then Some (Z.to_nat i)
  else None.

(** ** The regular expression of [_parse_interval] and [float]

    The pattern is NUM, white space, a dash, white space, NUM, with a group
    around each NUM and any amount of white space (none too); NUM is an
    optional minus, an optional plus, one or more digits, an optional dot and
    any number of digits.  Every quantifier in it is greedy and is followed
    by something its own characters cannot start, so the backtracking
    matcher of [re.match] takes the longest run each time; [re_match] does
    the same in one pass. *)

Definition is_digit (c : ascii) : bool :=
  let n := nat_of_ascii c in (48 <=? n)%nat && (n <=? 57)%nat.

(** [\s] on a byte string: space, tab, newline, vertical tab, form feed,
    carriage return. *)
Definition is_space (c : ascii) : bool :=
  let n := nat_of_ascii c in
  (n =? 32)%nat || ((9 <=? n)%nat && (n <=? 13)%nat).

Definition minus_sign : ascii := ascii_of_nat 45.
Definition plus_sign : ascii := ascii_of_nat 43.
Definition dot : ascii := ascii_of_nat 46.

Fixpoint take_while (p : ascii -> bool) (s : list ascii) : list ascii :=
  match s with
  | [] => []
  | c :: s' => if p c then c :: take_while p s' else []
  end.

Fixpoint drop_while (p : ascii -> bool) (s : list ascii) : list ascii :=
  match s with
  | [] => []
  | c :: s' => if p c then drop_while p s' else s
  end.

(** [c?]: the matched text and the rest. *)
Definition optional (c : ascii) (s : list ascii) : list ascii * list ascii :=
  match s with
  | x :: s' => if Ascii.eqb x c then ([x], s') else ([], s)
  | [] => ([], s)
  end.

(** One group NUM: its text and the rest. *)
Definition match_number (s : list ascii)
  : option (list ascii * list ascii) :=
  let (m, s1) := optional minus_sign s in
  let (p, s2) := optional plus_sign s1 in
  match take_while is_digit s2 with
  | [] => None
  | d =>
      let s3 := drop_while is_digit s2 in
      let (pt, s4) := optional dot s3 in
      let f := take_while is_digit s4 in
      Some (m ++ p ++ d ++ pt ++ f, drop_while is_digit s4)
  end.

(** [re.match(pattern, s)]: [None], or the two groups. *)
Definition re_match (s : list ascii) : option (list ascii * list ascii) :=
  match match_number s with
  | None => None
  | Some (g1, r1) =>
      match drop_while is_space r1 with
      | c :: r2 =>
          if Ascii.eqb c minus_sign then
            match match_number (drop_while is_space r2) with
            | None => None
            | Some (g2, _) => Some (g1, g2)
            end
          else None
      | [] => None
      end
  end.

Definition digit_value (c : ascii) : Z := Z.of_nat (nat_of_ascii c - 48).

Definition digits_value (ds : list ascii) : Z :=
  fold_left (fun acc c => (10 * acc + digit_value c)%Z) ds 0%Z.

(** The decimal [ip.fp] without sign; [None] when it is not of that form. *)
Definition unsigned_decimal (s : list ascii) : option Q :=
  let ip := take_while is_digit s in
  match drop_while is_digit s with
  | [] =>
      match ip with
      | [] => None
      | _ => Some (inject_Z (digits_value ip))
      end
  | c :: fp =>
      if Ascii.eqb c dot && forallb is_digit fp
         && negb ((length ip =? 0)%nat && (length fp =? 0)%nat)
      then Some (inject_Z (digits_value ip)
                 + inject_Z (digits_value fp)
                   / inject_Z (10 ^ Z.of_nat (length fp)))
      else None
  end.

(** [float(s)] on the texts a group of the pattern can hold (signs, digits
    and a dot): one optional sign, then a decimal; anything else is a
    ValueError. *)
Definition float (s : list ascii) : result Q :=
  let (negative, body) :=
    match s with
    | c :: s' =>
        if Ascii.eqb c minus_sign then (true, s')
        else if Ascii.eqb c plus_sign then (false, s')
        else (false, s)
    | [] => (false, s)
    end in
  match unsigned_decimal body with
  | Some q => Ok (if negative then - q else q)
  | None => Raise ValueError
  end.

(** ** class IntervalSet *)

Module IntervalSet.

(** An IntervalSet is its attribute [_intervals]. *)
Definition t : Type := list Interval.t.

Definition new_interval (imin imax : Q) : result Interval.t :=
  Interval.init imin imax false.

Definition len (self : t) : nat := length self.

Definition starts (self : t) : list Q := map Interval.start self.

Definition stops (self : t) : list Q := map Interval.stop self.

Definition extend (self : t) (list_of_intervals : list Interval.t) : t :=
  self ++ list_of_intervals.

Definition argsort (self : t) : list nat :=
  let tstarts := map Interval.start self in
  map fst (py_sorted snd (enumerate tstarts)).

Definition sort (self : t) : result (list Interval.t) :=
  g <- itemgetter (argsort self) self ;;
  Ok (atleast_1d g).

Definition default_tolerance : Q := 1 # 100000.

Definition is_contiguous_tol (self : t) (relative_tolerance : Q) : bool :=
  let starts := map Interval.start self in
  let stops := map Interval.stop self in
  allclose (tl starts) (removelast stops) relative_tolerance.

Definition is_contiguous (self : t) : bool :=
  is_contiguous_tol self default_tolerance.

Definition edges (self : t) : result (list Q) :=
  if is_contiguous self then
    g <- itemgetter (argsort self) self ;;
    l <- iterate g ;;
    let edges := map Interval.start l in
    g' <- itemgetter (argsort self) self ;;
    l' <- iterate g' ;;
    e <- last_item (map Interval.stop l') ;;
    Ok (edges ++ [e])
  else Raise IntervalsNotContiguous.

Definition containing_bin (self : t) (value : Q) : result Z :=
  e <- edges self ;;
  let idx :=
    Z.min (Z.max 0 (Z.of_nat (searchsorted e value) - 1))
          (Z.of_nat (len self)) in
  Ok idx.

(** [IntervalSet.__eq__]: the loop over [zip(self.sort(), other.sort())]. *)
Fixpoint eq_loop (pairs : list (Interval.t * Interval.t)) : bool :=
  match pairs with
  | [] => true
  | (interval_this, interval_other) :: pairs' =>
      if negb (Interval.eq interval_this interval_other) then false
      else eq_loop pairs'
  end.

Definition eq (self other : t) : result bool :=
  s <- sort self ;;
  o <- sort other ;;
  Ok (eq_loop (combine s o)).

Definition from_starts_and_stops (starts stops : list Q) : result t :=
  if Nat.eqb (length starts) (length stops) then
    mapM (fun p => new_interval (fst p) (snd p)) (combine starts stops)
  else Raise AssertionError.

(** [edges.sort()] mutates the caller's list: the first component is the
    content of the argument object after the call, whatever happens next. *)
Definition from_list_of_edges (edges : list Q) : list Q * result t :=
  let edges := py_sorted (fun x => x) edges in
  (edges,
   mapM (fun p => new_interval (fst p) (snd p))
        (combine (removelast edges) (tl edges))).

(** [_parse_interval]: [re.match] returns [None] on a text that does not
    match, and [None.groups()] is an AttributeError. *)
Definition _parse_interval (time_interval : String.string)
  : result (Q * Q) :=
  match re_match (String.list_ascii_of_string time_interval) with
  | None => Raise AttributeError
  | Some (g1, g2) =>
      imin <- float g1 ;;
      imax <- float g2 ;;
      Ok (imin, imax)
  end.

Definition from_strings (intervals : list String.string) : result t :=
  mapM (fun interval =>
          p <- _parse_interval interval ;;
          new_interval (fst p) (snd p))
       intervals.

(** The loop [while len(sorted_intervals) > 1] of
    [merge_intersecting_intervals].  [sorted_intervals] is the numpy array
    that [sort] returned, so the two calls of [pop(0)] are [ndarray_pop].
    The loop runs on [fuel], the length of the array: an iteration that
    returns takes at least one item off it, so the fuel does not run out.
    It returns what is left of [sorted_intervals], and [new_intervals]. *)
Fixpoint merge_loop (fuel : nat)
         (sorted_intervals new_intervals : list Interval.t)
  : result (list Interval.t * list Interval.t) :=
  if (1 <? length sorted_intervals)%nat then
    match fuel with
    | O => Ok (sorted_intervals, new_intervals)
    | S fuel' =>
        popped <- ndarray_pop sorted_intervals 0 ;;
        let this_interval := snd popped in
        let sorted_intervals := fst popped in
        head <- getitem sorted_intervals 0 ;;
        if Interval.overlaps_with this_interval head then
          popped' <- ndarray_pop sorted_intervals 0 ;;
          let next_interval := snd popped' in
          let sorted_intervals := fst popped' in
          merged <- Interval.merge this_interval next_interval ;;
          merge_loop fuel' sorted_intervals (new_intervals ++ [merged])
        else
          merge_loop fuel' sorted_intervals (new_intervals ++ [this_interval])
    end
  else Ok (sorted_intervals, new_intervals).

(** The block [if sorted_intervals: ...] after the loop. *)
Definition merge_leftover (sorted_intervals new_intervals : list Interval.t)
  : result (list Interval.t) :=
  nonempty <- ndarray_bool sorted_intervals ;;
  if nonempty then
    if negb (length sorted_intervals =? 1)%nat then Raise AssertionError
    else
      match new_intervals with
      | [] =>
          leftover <- getitem sorted_intervals 0 ;;
          Ok (new_intervals ++ [leftover])
      | _ =>
          final <- last_item new_intervals ;;
          leftover <- getitem sorted_intervals 0 ;;
          if Interval.overlaps_with final leftover then
            merged <- Interval.merge final leftover ;;
            Ok (removelast new_intervals ++ [merged])
          else Ok (new_intervals ++ [leftover])
      end
  else Ok new_intervals.

(** [merge_intersecting_intervals(in_place)]: the receiver after the call
    and the returned value ([None] for Python's None). *)
Definition merge_intersecting_intervals (self : t) (in_place : bool)
  : result (t * option t) :=
  sorted_intervals <- sort self ;;
  state <- merge_loop (length sorted_intervals) sorted_intervals [] ;;
  new_intervals <- merge_leftover (fst state) (snd state) ;;
  if in_place then Ok (new_intervals, None)
  else Ok (self, Some new_intervals).

(** [__getitem__] with an integer index. *)
Definition __getitem__ (self : t) (item : Z) : result Interval.t :=
  match py_index (length self) item with
  | Some k => getitem self k
  | None => Raise IndexError
  end.

(** [pop(index)]: the receiver after the call and the interval returned. *)
Definition pop (self : t) (index : Z) : result (t * Interval.t) :=
  match py_index (length self) index with
  | Some k =>
      x <- getitem self k ;;
      Ok (firstn k self ++ skipn (S k) self, x)
  | None => Raise IndexError
  end.

Definition absolute_start (self : t) : result Q := py_min_list (starts self).

Definition absolute_stop (self : t) : result Q := py_max_list (stops self).


End IntervalSet.

(** ** Notions the properties are stated with *)

(** The set, taken in its sort order, is contiguous. *)
Definition contiguous_in_sort_order (self : IntervalSet.t) : result bool :=
  s <- IntervalSet.sort self ;;
  Ok (IntervalSet.is_contiguous s).

(** The pattern of [_parse_interval] as a regular expression, with the
    usual meaning of one: the set of texts it matches. *)
Inductive regex : Type :=
| Chr (p : ascii -> bool)
| Seq (r1 r2 : regex)
| Opt (r : regex)
| Star (r : regex).

Inductive matches : regex -> list ascii -> Prop :=
| matches_chr (p : ascii -> bool) (c : ascii) :
    p c = true -> matches (Chr p) [c]
| matches_seq (r1 r2 : regex) (s1 s2 : list ascii) :
    matches r1 s1 -> matches r2 s2 -> matches (Seq r1 r2) (s1 ++ s2)
| matches_opt_none (r : regex) : matches (Opt r) []
| matches_opt_some (r : regex) (s : list ascii) :
    matches r s -> matches (Opt r) s
| matches_star_nil (r : regex) : matches (Star r) []
| matches_star_cons (r : regex) (s1 s2 : list ascii) :
    matches r s1 -> matches (Star r) s2 -> matches (Star r) (s1 ++ s2).

Definition Plus (r : regex) : regex := Seq r (Star r).

Definition is_char (c : ascii) : ascii -> bool := fun x => Ascii.eqb x c.

(** An optional minus, an optional plus, digits, an optional dot, digits. *)
Definition number_pattern : regex :=
  Seq (Opt (Chr (is_char minus_sign)))
      (Seq (Opt (Chr (is_char plus_sign)))
           (Seq (Plus (Chr is_digit))
                (Seq (Opt (Chr (is_char dot))) (Star (Chr is_digit))))).

Definition interval_pattern : regex :=
  Seq number_pattern
      (Seq (Star (Chr is_space))
           (Seq (Chr (is_char minus_sign))
                (Seq (Star (Chr is_space)) number_pattern))).

(** [re.match] looks for the pattern at the start of the text and does not
    ask it to reach the end. *)
Definition matches_prefix (r : regex) (s : list ascii) : Prop :=
  exists pre rest, s = pre ++ rest /\ matches r pre.

(** A token that yields the interval [i]: it matches, [float] turns its two
    groups into the bounds of [i], and the bounds are in order. *)
Definition parses_to (token : String.string) (i : Interval.t) : Prop :=
  exists g1 g2,
    re_match (String.list_ascii_of_string token) = Some (g1, g2)
    /\ float g1 = Ok (Interval.start i)
    /\ float g2 = Ok (Interval.stop i)
    /\ Interval.start i <= Interval.stop i.

(** Ordered by a key, as [sorted] leaves a list. *)
Definition key_le {A : Type} (key : A -> Q) (x y : A) : Prop :=
  key x <= key y.

(** The texts of [number_pattern], taken apart. *)
Definition number_shape (g : list ascii) : Prop :=
  exists m p d pt f,
    g = m ++ p ++ d ++ pt ++ f
    /\ (m = [] \/ m = [minus_sign])
    /\ (p = [] \/ p = [plus_sign])
    /\ d <> [] /\ forallb is_digit d = true
    /\ (pt = [] \/ pt = [dot])
    /\ forallb is_digit f = true.

(** A text that cannot continue a run of digits, nor start a fraction. *)
Definition ends_number (rest : list ascii) : Prop :=
  match rest with
  | [] => True
  | c :: _ => is_digit c = false /\ Ascii.eqb c dot = false
  end.

(** What [from_strings] does with one token. *)
Definition parse_token (token : String.string) : result Interval.t :=
  p <- IntervalSet._parse_interval token ;;
  IntervalSet.new_interval (fst p) (snd p).

(** ** Reflection of the boolean comparisons *)

Lemma Qltb_lt (x y : Q) : Qltb x y = true <-> x < y.
Proof.
  unfold Qltb. rewrite negb_true_iff, <- not_true_iff_false, Qle_bool_iff.
  split; [apply Qnot_le_lt | apply Qlt_not_le].
Qed.

Lemma Qltb_ge (x y : Q) : Qltb x y = false <-> y <= x.
Proof.
  unfold Qltb. rewrite negb_false_iff. apply Qle_bool_iff.
Qed.

Lemma Qeq_bool_false (x y : Q) : Qeq_bool x y = false <-> ~ x == y.
Proof.
  rewrite <- not_true_iff_false, Qeq_bool_iff. tauto.
Qed.

(** Turn every boolean comparison in sight into the order fact it decides. *)
Ltac qcases :=
  repeat match goal with
  | |- context [Qltb ?x ?y] =>
      let E := fresh "E" in
      destruct (Qltb x y) eqn:E;
      [apply Qltb_lt in E | apply Qltb_ge in E]
  | |- context [Qeq_bool ?x ?y] =>
      let E := fresh "E" in
      destruct (Qeq_bool x y) eqn:E;
      [apply Qeq_bool_iff in E | apply Qeq_bool_false in E]
  | |- context [Qle_bool ?x ?y] =>
      let E := fresh "E" in
      destruct (Qle_bool x y) eqn:E;
      [apply Qle_bool_iff in E
      | apply not_true_iff_false in E; rewrite Qle_bool_iff in E]
  end; cbn [negb andb orb] in *.

Lemma py_max_Qmax (a b : Q) : py_max a b == Qmax a b.
Proof.
  unfold py_max. qcases.
  - symmetry. apply Q.max_r. lra.
  - symmetry. apply Q.max_l. lra.
Qed.

Lemma py_min_Qmin (a b : Q) : py_min a b == Qmin a b.
Proof.
  unfold py_min. qcases.
  - symmetry. apply Q.min_r. lra.
  - symmetry. apply Q.min_l. lra.
Qed.

Lemma overlaps_with_iff (a b : Interval.t) :
  Interval.overlaps_with a b = true <->
  (Interval.start b == Interval.start a \/ Interval.stop b == Interval.stop a)
  \/ (Interval.start a < Interval.start b /\ Interval.start b < Interval.stop a)
  \/ (Interval.start a < Interval.stop b /\ Interval.stop b < Interval.stop a)
  \/ (Interval.start b < Interval.start a /\ Interval.stop a < Interval.stop b).
Proof.
  unfold Interval.overlaps_with. qcases; split; intros H;
    try reflexivity; try discriminate; try tauto; try lra.
Qed.

(** ** Interval: construction, overlap, intersect and merge *)

Lemma init_valid (a b : Q) :
  a <= b -> Interval.init a b false = Ok (Interval.mk a b).
Proof.
  intros H. unfold Interval.init. qcases; [lra | reflexivity].
Qed.

Lemma init_inverted (a b : Q) :
  b < a -> Interval.init a b false = Raise RuntimeError.
Proof.
  intros H. unfold Interval.init. qcases; [reflexivity | lra].
Qed.

Lemma init_ok_valid (a b : Q) (swap : bool) (i : Interval.t) :
  Interval.init a b swap = Ok i -> Interval.valid i.
Proof.
  unfold Interval.init, Interval.valid. qcases; destruct swap;
    intros H; inversion H; subst; cbn; lra.
Qed.

Lemma overlaps_bounds_ordered (a b : Interval.t) :
  Interval.valid a -> Interval.valid b ->
  Interval.overlaps_with a b = true ->
  py_max (Interval.start a) (Interval.start b)
  <= py_min (Interval.stop a) (Interval.stop b).
Proof.
  unfold Interval.valid. intros Ha Hb H. apply overlaps_with_iff in H.
  unfold py_max, py_min. qcases; lra.
Qed.

Lemma merge_bounds_ordered (a b : Interval.t) :
  Interval.valid a -> Interval.valid b ->
  py_min (Interval.start a) (Interval.start b)
  <= py_max (Interval.stop a) (Interval.stop b).
Proof.
  unfold Interval.valid, py_max, py_min. intros Ha Hb. qcases; lra.
Qed.

Lemma intersect_overlapping (a b : Interval.t) :
  Interval.valid a -> Interval.valid b ->
  Interval.overlaps_with a b = true ->
  Interval.intersect a b =
  Ok (Interval.mk (py_max (Interval.start a) (Interval.start b))
                  (py_min (Interval.stop a) (Interval.stop b))).
Proof.
  intros Ha Hb H. unfold Interval.intersect, Interval.new. rewrite H. cbn.
  apply init_valid. now apply overlaps_bounds_ordered.
Qed.

Lemma merge_overlapping (a b : Interval.t) :
  Interval.valid a -> Interval.valid b ->
  Interval.overlaps_with a b = true ->
  Interval.merge a b =
  Ok (Interval.mk (py_min (Interval.start a) (Interval.start b))
                  (py_max (Interval.stop a) (Interval.stop b))).
Proof.
  intros Ha Hb H. unfold Interval.merge, Interval.new. rewrite H.
  apply init_valid. now apply merge_bounds_ordered.
Qed.

(** C5: for valid intervals, [intersect] and [merge] raise
    IntervalsDoNotOverlap exactly when [overlaps_with] is false; otherwise
    [intersect] returns the interval from the larger start to the smaller
    stop and [merge] the interval from the smaller start to the larger
    stop. *)
Theorem intersect_merge_spec (a b : Interval.t) :
  Interval.valid a -> Interval.valid b ->
  (Interval.intersect a b = Raise IntervalsDoNotOverlap
   <-> Interval.overlaps_with a b = false)
  /\ (Interval.overlaps_with a b = true ->
      exists r, Interval.intersect a b = Ok r
        /\ Interval.start r == Qmax (Interval.start a) (Interval.start b)
        /\ Interval.stop r == Qmin (Interval.stop a) (Interval.stop b))
  /\ (Interval.merge a b = Raise IntervalsDoNotOverlap
      <-> Interval.overlaps_with a b = false)
  /\ (Interval.overlaps_with a b = true ->
      exists r, Interval.merge a b = Ok r
        /\ Interval.start r == Qmin (Interval.start a) (Interval.start b)
        /\ Interval.stop r == Qmax (Interval.stop a) (Interval.stop b)).
Proof.
  intros Ha Hb.
  destruct (Interval.overlaps_with a b) eqn:Hov.
  - rewrite (intersect_overlapping a b Ha Hb Hov).
    rewrite (merge_overlapping a b Ha Hb Hov).
    repeat split; try discriminate; intros _; eexists;
      (split; [reflexivity | cbn; split;
                 first [apply py_max_Qmax | apply py_min_Qmin]]).
  - unfold Interval.intersect, Interval.merge. rewrite Hov. cbn.
    repeat split; try reflexivity; discriminate.
Qed.

Lemma intersect_merge_spec_witness :
  Interval.valid (Interval.mk 0 2) /\ Interval.valid (Interval.mk 1 3)
  /\ Interval.overlaps_with (Interval.mk 0 2) (Interval.mk 1 3) = true
  /\ exists r, Interval.intersect (Interval.mk 0 2) (Interval.mk 1 3) = Ok r
       /\ Interval.start r == Qmax 0 1 /\ Interval.stop r == Qmin 2 3.
Proof.
  assert (Ha : Interval.valid (Interval.mk 0 2)) by (cbv; discriminate).
  assert (Hb : Interval.valid (Interval.mk 1 3)) by (cbv; discriminate).
  split; [exact Ha | split; [exact Hb | split; [reflexivity |]]].
  exact (proj1 (proj2 (intersect_merge_spec _ _ Ha Hb)) eq_refl).
Defined.

(** C9: when two valid intervals overlap, the larger start is at most the
    smaller stop, so the interval that [intersect] builds satisfies
    [start <= stop] and the constructor's RuntimeError cannot come out of
    [intersect]. *)
Theorem intersect_never_inverted (a b : Interval.t) :
  Interval.valid a -> Interval.valid b ->
  Interval.overlaps_with a b = true ->
  Qmax (Interval.start a) (Interval.start b)
  <= Qmin (Interval.stop a) (Interval.stop b)
  /\ Interval.init (py_max (Interval.start a) (Interval.start b))
                   (py_min (Interval.stop a) (Interval.stop b)) false
     <> Raise RuntimeError
  /\ exists r, Interval.intersect a b = Ok r /\ Interval.valid r.
Proof.
  intros Ha Hb Hov.
  pose proof (overlaps_bounds_ordered a b Ha Hb Hov) as Hle.
  split; [| split].
  - now rewrite <- py_max_Qmax, <- py_min_Qmin.
  - rewrite (init_valid _ _ Hle). discriminate.
  - rewrite (intersect_overlapping a b Ha Hb Hov). eexists. split.
    + reflexivity.
    + exact Hle.
Qed.

Lemma intersect_never_inverted_witness :
  Interval.valid (Interval.mk 0 1) /\ Interval.valid (Interval.mk 1 1)
  /\ Interval.overlaps_with (Interval.mk 0 1) (Interval.mk 1 1) = true
  /\ Qmax 0 1 <= Qmin 1 1
  /\ exists r, Interval.intersect (Interval.mk 0 1) (Interval.mk 1 1) = Ok r
       /\ Interval.valid r.
Proof.
  assert (Ha : Interval.valid (Interval.mk 0 1)) by (cbv; discriminate).
  assert (Hb : Interval.valid (Interval.mk 1 1)) by (cbv; discriminate).
  pose proof (intersect_never_inverted _ _ Ha Hb eq_refl) as H.
  split; [exact Ha | split; [exact Hb | split; [reflexivity |]]].
  split; [exact (proj1 H) | exact (proj2 (proj2 H))].
Defined.

(** C7: [overlaps_with] is symmetric on valid intervals. *)
Theorem overlaps_with_symmetric (a b : Interval.t) :
  Interval.valid a -> Interval.valid b ->
  Interval.overlaps_with a b = Interval.overlaps_with b a.
Proof.
  unfold Interval.valid. intros Ha Hb.
  apply eq_true_iff_eq. rewrite !overlaps_with_iff. split; intros H; lra.
Qed.

Lemma overlaps_with_symmetric_witness :
  Interval.valid (Interval.mk 0 5) /\ Interval.valid (Interval.mk 1 3)
  /\ Interval.overlaps_with (Interval.mk 0 5) (Interval.mk 1 3)
     = Interval.overlaps_with (Interval.mk 1 3) (Interval.mk 0 5).
Proof.
  assert (Ha : Interval.valid (Interval.mk 0 5)) by (cbv; discriminate).
  assert (Hb : Interval.valid (Interval.mk 1 3)) by (cbv; discriminate).
  split; [exact Ha | split; [exact Hb |]].
  exact (overlaps_with_symmetric _ _ Ha Hb).
Defined.

(** C6: two valid intervals that touch (the stop of one is the start of the
    other) and share neither their start values nor their stop values do not
    overlap, in either direction; intervals that share a start value or a
    stop value overlap; and [overlaps_with] holds exactly in these cases: a
    shared start, a shared stop, an endpoint of the argument strictly inside
    the receiver, or the argument strictly enclosing the receiver. *)
Theorem overlap_boundary_policy :
  (forall a b : Interval.t,
      Interval.valid a -> Interval.valid b ->
      Interval.stop a == Interval.start b ->
      ~ Interval.start a == Interval.start b ->
      ~ Interval.stop a == Interval.stop b ->
      Interval.overlaps_with a b = false /\ Interval.overlaps_with b a = false)
  /\ Interval.overlaps_with (Interval.mk 0 1) (Interval.mk 1 2) = false
  /\ (forall a b : Interval.t,
         Interval.start a == Interval.start b
         \/ Interval.stop a == Interval.stop b ->
         Interval.overlaps_with a b = true)
  /\ Interval.overlaps_with (Interval.mk 0 1) (Interval.mk 1 1) = true
  /\ (forall a b : Interval.t,
         Interval.overlaps_with a b = true <->
         Interval.start b == Interval.start a
         \/ Interval.stop b == Interval.stop a
         \/ (Interval.start a < Interval.start b < Interval.stop a)
         \/ (Interval.start a < Interval.stop b < Interval.stop a)
         \/ (Interval.start b < Interval.start a
             /\ Interval.stop a < Interval.stop b)).
Proof.
  split; [| split; [reflexivity | split; [| split; [reflexivity |]]]].
  - unfold Interval.valid. intros a b Ha Hb Ht Hs He.
    split; apply not_true_iff_false; rewrite overlaps_with_iff; lra.
  - intros a b H. apply overlaps_with_iff. lra.
  - intros a b. rewrite overlaps_with_iff. split; intros H; lra.
Qed.

Lemma overlap_boundary_policy_witness :
  Interval.overlaps_with (Interval.mk 0 1) (Interval.mk 1 2) = false
  /\ Interval.overlaps_with (Interval.mk 1 2) (Interval.mk 0 1) = false.
Proof.
  apply (proj1 overlap_boundary_policy (Interval.mk 0 1) (Interval.mk 1 2));
    cbv; first [reflexivity | discriminate].
Defined.

(** ** Python's sort: a sorted, stable permutation *)

Section PySorted.

Context {A : Type} (key : A -> Q).

Lemma py_sorted_cons (x : A) (l : list A) :
  py_sorted key (x :: l) = insert_by key x (py_sorted key l).
Proof. reflexivity. Qed.

Lemma insert_by_perm (x : A) (l : list A) :
  Permutation (x :: l) (insert_by key x l).
Proof.
  induction l as [| y l IH]; cbn.
  - apply Permutation_refl.
  - destruct (Qltb (key y) (key x)).
    + rewrite perm_swap. now apply perm_skip.
    + apply Permutation_refl.
Qed.

Lemma py_sorted_perm (l : list A) : Permutation l (py_sorted key l).
Proof.
  induction l as [| x l IH]; cbn.
  - apply perm_nil.
  - rewrite <- insert_by_perm. now apply perm_skip.
Qed.

Lemma py_sorted_length (l : list A) :
  length (py_sorted key l) = length l.
Proof.
  symmetry. apply Permutation_length, py_sorted_perm.
Qed.

Lemma insert_by_sorted (x : A) (l : list A) :
  StronglySorted (key_le key) l -> StronglySorted (key_le key) (insert_by key x l).
Proof.
  induction 1 as [| y l Hs IH Hy]; cbn.
  - constructor; constructor.
  - destruct (Qltb (key y) (key x)) eqn:E.
    + apply Qltb_lt in E. constructor; [exact IH |].
      rewrite <- insert_by_perm. constructor; [| exact Hy].
      unfold key_le. lra.
    + apply Qltb_ge in E. constructor.
      * now constructor.
      * constructor; [exact E |].
        eapply Forall_impl; [| exact Hy].
        unfold key_le. intros z Hz. lra.
Qed.

Lemma py_sorted_sorted (l : list A) :
  StronglySorted (key_le key) (py_sorted key l).
Proof.
  induction l as [| x l IH]; cbn.
  - constructor.
  - now apply insert_by_sorted.
Qed.

(** Sorting leaves an ascending list as it is. *)
Lemma insert_by_head (x : A) (l : list A) :
  Forall (key_le key x) l -> insert_by key x l = x :: l.
Proof.
  destruct l as [| y l]; cbn; [reflexivity |].
  intros H. inversion H as [| ? ? Hxy _]; subst.
  unfold key_le in Hxy. apply Qltb_ge in Hxy. now rewrite Hxy.
Qed.

Lemma py_sorted_id (l : list A) :
  StronglySorted (key_le key) l -> py_sorted key l = l.
Proof.
  induction 1 as [| x l Hs IH Hx]; [reflexivity |].
  rewrite py_sorted_cons, IH. now apply insert_by_head.
Qed.

End PySorted.

(** Sorting commutes with a map that preserves the key. *)
Lemma insert_by_map {A B : Type} (f : A -> B) (k1 : A -> Q) (k2 : B -> Q)
      (x : A) (l : list A) :
  (forall a, k2 (f a) = k1 a) ->
  map f (insert_by k1 x l) = insert_by k2 (f x) (map f l).
Proof.
  intros Hk. induction l as [| y l IH]; cbn; [reflexivity |].
  rewrite !Hk. destruct (Qltb (k1 y) (k1 x)); cbn; [now rewrite IH | reflexivity].
Qed.

Lemma py_sorted_map {A B : Type} (f : A -> B) (k1 : A -> Q) (k2 : B -> Q)
      (l : list A) :
  (forall a, k2 (f a) = k1 a) ->
  map f (py_sorted k1 l) = py_sorted k2 (map f l).
Proof.
  intros Hk. induction l as [| x l IH]; [reflexivity |].
  cbn [map]. rewrite !py_sorted_cons, (insert_by_map f k1 k2 _ _ Hk).
  now rewrite IH.
Qed.

(** ** [argsort], [itemgetter] and [sort] *)

Lemma enumerate_from_map {A B : Type} (f : A -> B) (n : nat) (l : list A) :
  enumerate_from n (map f l)
  = map (fun p => (fst p, f (snd p))) (enumerate_from n l).
Proof.
  revert n. induction l as [| x l IH]; intros n; cbn; [reflexivity |].
  now rewrite IH.
Qed.

Lemma enumerate_from_snd {A : Type} (n : nat) (l : list A) :
  map snd (enumerate_from n l) = l.
Proof.
  revert n. induction l as [| x l IH]; intros n; cbn; [reflexivity |].
  now rewrite IH.
Qed.

Lemma enumerate_from_lookup {A : Type} (pre l : list A) :
  Forall (fun p => nth_error (pre ++ l) (fst p) = Some (snd p))
         (enumerate_from (length pre) l).
Proof.
  revert pre. induction l as [| x l IH]; intros pre; cbn; constructor.
  - cbn. rewrite nth_error_app2 by lia. now rewrite Nat.sub_diag.
  - specialize (IH (pre ++ [x])).
    rewrite <- app_assoc, length_app, Nat.add_1_r in IH. exact IH.
Qed.

Lemma getitems_lookup {A : Type} (obj : list A) (ps : list (nat * A)) :
  Forall (fun p => nth_error obj (fst p) = Some (snd p)) ps ->
  getitems obj (map fst ps) = Ok (map snd ps).
Proof.
  induction 1 as [| p ps Hp _ IH]; cbn; [reflexivity |].
  unfold getitem. rewrite Hp. cbn. now rewrite IH.
Qed.

Lemma argsort_spec (self : IntervalSet.t) :
  IntervalSet.argsort self
  = map fst (py_sorted (fun p => Interval.start (snd p)) (enumerate self)).
Proof.
  unfold IntervalSet.argsort, enumerate. rewrite enumerate_from_map.
  rewrite <- (py_sorted_map (fun p : nat * Interval.t => (fst p, Interval.start (snd p)))
                (fun p => Interval.start (snd p)) snd) by reflexivity.
  rewrite map_map. reflexivity.
Qed.

Lemma argsort_length (self : IntervalSet.t) :
  length (IntervalSet.argsort self) = length self.
Proof.
  rewrite argsort_spec, length_map, py_sorted_length.
  unfold enumerate. rewrite <- (length_map snd), enumerate_from_snd.
  reflexivity.
Qed.

(** Fetching the items at the indices of [argsort] gives the set sorted by
    start. *)
Lemma getitems_argsort (self : IntervalSet.t) :
  getitems self (IntervalSet.argsort self)
  = Ok (py_sorted Interval.start self).
Proof.
  rewrite argsort_spec. rewrite getitems_lookup.
  - rewrite (py_sorted_map snd (fun p => Interval.start (snd p)) Interval.start)
      by reflexivity.
    unfold enumerate. now rewrite enumerate_from_snd.
  - pose proof (enumerate_from_lookup [] self) as H. cbn in H.
    rewrite Forall_forall in *. intros p Hp. apply H.
    eapply Permutation_in; [| exact Hp].
    apply Permutation_sym, py_sorted_perm.
Qed.

Lemma itemgetter_argsort_many (self : IntervalSet.t) :
  (2 <= length self)%nat ->
  itemgetter (IntervalSet.argsort self) self
  = Ok (Many (py_sorted Interval.start self)).
Proof.
  intros Hlen. pose proof (getitems_argsort self) as Hg.
  pose proof (argsort_length self) as Hl.
  unfold itemgetter.
  destruct (IntervalSet.argsort self) as [| i [| j items]]; cbn in Hl; try lia.
  now rewrite Hg.
Qed.

Lemma itemgetter_argsort_one (x : Interval.t) :
  itemgetter (IntervalSet.argsort [x]) [x] = Ok (One x).
Proof. reflexivity. Qed.

Lemma sort_spec (self : IntervalSet.t) :
  self <> [] -> IntervalSet.sort self = Ok (py_sorted Interval.start self).
Proof.
  intros Hne. unfold IntervalSet.sort.
  destruct self as [| x [| y l]]; [congruence | reflexivity |].
  rewrite itemgetter_argsort_many by (cbn; lia). reflexivity.
Qed.

Lemma sort_empty : IntervalSet.sort [] = Raise TypeError.
Proof. reflexivity. Qed.

Lemma Forall_valid_sorted (self : IntervalSet.t) :
  Forall Interval.valid self ->
  Forall Interval.valid (py_sorted Interval.start self).
Proof.
  intros H. rewrite Forall_forall in *. intros x Hx. apply H.
  eapply Permutation_in; [| exact Hx].
  apply Permutation_sym, py_sorted_perm.
Qed.

(** ** [from_list_of_edges] *)

Lemma adjacent_cons {A : Type} (x y : A) (l : list A) :
  combine (removelast (x :: y :: l)) (tl (x :: y :: l))
  = (x, y) :: combine (removelast (y :: l)) (tl (y :: l)).
Proof. reflexivity. Qed.

Lemma new_interval_adjacent (l : list Q) :
  StronglySorted Qle l ->
  mapM (fun p => IntervalSet.new_interval (fst p) (snd p))
       (combine (removelast l) (tl l))
  = Ok (map (fun p => Interval.mk (fst p) (snd p))
            (combine (removelast l) (tl l))).
Proof.
  induction 1 as [| x l Hs IH Hx]; [reflexivity |].
  destruct l as [| y l]; [reflexivity |].
  rewrite adjacent_cons. cbn [mapM map fst snd].
  inversion Hx as [| ? ? Hxy _]; subst.
  unfold IntervalSet.new_interval at 1. rewrite (init_valid _ _ Hxy).
  cbn [bind]. rewrite IH. reflexivity.
Qed.

(** C10: [from_list_of_edges] sorts the list it is given: after the call the
    argument holds the same values in ascending order, and the returned set
    is made of the adjacent pairs of that sorted list.  The caller sees the
    change: [[1; -1; 0]] has become [[-1; 0; 1]]. *)
Theorem from_list_of_edges_sorts_argument (edges : list Q) :
  let after := fst (IntervalSet.from_list_of_edges edges) in
  Permutation edges after
  /\ StronglySorted Qle after
  /\ snd (IntervalSet.from_list_of_edges edges)
     = Ok (map (fun p => Interval.mk (fst p) (snd p))
               (combine (removelast after) (tl after)))
  /\ fst (IntervalSet.from_list_of_edges [1; -1; 0]) = [-1; 0; 1].
Proof.
  cbn zeta. unfold IntervalSet.from_list_of_edges. cbn [fst snd].
  pose proof (py_sorted_sorted (fun x : Q => x) edges) as Hs.
  split; [apply py_sorted_perm | split; [exact Hs | split]].
  - apply new_interval_adjacent. exact Hs.
  - reflexivity.
Qed.

(** ** [edges] *)

Lemma last_item_app {A : Type} (l : list A) (x : A) :
  last_item (l ++ [x]) = Ok x.
Proof.
  unfold last_item. rewrite rev_app_distr. reflexivity.
Qed.

Lemma last_item_nonempty {A : Type} (l : list A) :
  l <> [] -> exists x, last_item l = Ok x.
Proof.
  intros H. destruct (exists_last H) as [l' [x ->]].
  exists x. apply last_item_app.
Qed.

Lemma edges_contiguous (self : IntervalSet.t) :
  (2 <= length self)%nat ->
  IntervalSet.is_contiguous self = true ->
  exists last_stop,
    last_item (IntervalSet.stops (py_sorted Interval.start self)) = Ok last_stop
    /\ IntervalSet.edges self
       = Ok (IntervalSet.starts (py_sorted Interval.start self) ++ [last_stop]).
Proof.
  intros Hlen Hc. unfold IntervalSet.edges. rewrite Hc.
  rewrite itemgetter_argsort_many by exact Hlen. cbn [bind iterate].
  destruct (last_item_nonempty
              (IntervalSet.stops (py_sorted Interval.start self))) as [e He].
  - intros Hnil. apply (f_equal (@length Q)) in Hnil.
    unfold IntervalSet.stops in Hnil.
    rewrite length_map, py_sorted_length in Hnil. cbn in Hnil. lia.
  - exists e. split; [exact He |].
    unfold IntervalSet.stops in He. rewrite He. reflexivity.
Qed.

(** A set of one interval: [itemgetter] hands back the interval itself, and
    the comprehension over it is a TypeError. *)
Lemma edges_single (x : Interval.t) :
  IntervalSet.edges [x] = Raise TypeError.
Proof. reflexivity. Qed.

Lemma edges_empty : IntervalSet.edges [] = Raise TypeError.
Proof. reflexivity. Qed.

(** C3, as the code has it: for a set of two or more intervals, [edges]
    raises IntervalsNotContiguous exactly when [is_contiguous] fails, and
    [is_contiguous] looks at the set in the order it is stored; when it holds,
    [edges] returns the starts of the sorted set followed by the stop of its
    last interval, one value more than the set has intervals. *)
Theorem edges_spec (self : IntervalSet.t) :
  (2 <= length self)%nat ->
  (IntervalSet.edges self = Raise IntervalsNotContiguous
   <-> IntervalSet.is_contiguous self = false)
  /\ (IntervalSet.is_contiguous self = true ->
      exists s last_stop,
        IntervalSet.sort self = Ok s
        /\ last_item (IntervalSet.stops s) = Ok last_stop
        /\ IntervalSet.edges self = Ok (IntervalSet.starts s ++ [last_stop])
        /\ length (IntervalSet.starts s ++ [last_stop]) = S (length self)).
Proof.
  intros Hlen. split.
  - destruct (IntervalSet.is_contiguous self) eqn:Hc.
    + destruct (edges_contiguous self Hlen Hc) as [e [_ He]].
      rewrite He. split; discriminate.
    + unfold IntervalSet.edges. rewrite Hc. split; reflexivity.
  - intros Hc. destruct (edges_contiguous self Hlen Hc) as [e [Hl He]].
    exists (py_sorted Interval.start self), e.
    split; [| split; [exact Hl | split; [exact He |]]].
    + apply sort_spec. intros ->. cbn in Hlen. lia.
    + unfold IntervalSet.starts.
      rewrite length_app, length_map, py_sorted_length. cbn. lia.
Qed.

Lemma edges_spec_witness :
  IntervalSet.edges [Interval.mk 1 2; Interval.mk 0 1; Interval.mk 2 3]
  = Raise IntervalsNotContiguous
  <-> IntervalSet.is_contiguous
        [Interval.mk 1 2; Interval.mk 0 1; Interval.mk 2 3] = false.
Proof.
  apply (edges_spec [Interval.mk 1 2; Interval.mk 0 1; Interval.mk 2 3]).
  cbn. lia.
Defined.

(** Counterexample to C3: the guard of [edges] is [is_contiguous], on the
    stored order.  Stored as (1,2), (0,1) the set is contiguous in its sort
    order, and [edges] raises IntervalsNotContiguous all the same. *)
Lemma edges_checks_stored_order :
  contiguous_in_sort_order [Interval.mk 1 2; Interval.mk 0 1] = Ok true
  /\ IntervalSet.edges [Interval.mk 1 2; Interval.mk 0 1]
     = Raise IntervalsNotContiguous.
Proof. split; reflexivity. Qed.

(** ** [containing_bin] *)

(** C2 at the set with edges 0, 1, 2, 3: the queries -5 and 1.5 give 0 and 1,
    and the query 10 gives 3, the number of intervals, where the last index
    is 2: the upper clamp of [containing_bin] is [len(self)]. *)
Theorem containing_bin_upper_clamp :
  let s := [Interval.mk 0 1; Interval.mk 1 2; Interval.mk 2 3] in
  IntervalSet.edges s = Ok [0; 1; 2; 3]
  /\ IntervalSet.len s = 3%nat
  /\ IntervalSet.containing_bin s (-5) = Ok 0%Z
  /\ IntervalSet.containing_bin s (3 # 2) = Ok 1%Z
  /\ IntervalSet.containing_bin s 10 = Ok 3%Z.
Proof. cbn zeta. repeat split; reflexivity. Qed.

(** ** The range of [containing_bin] *)

Lemma edges_ok_inv (self : IntervalSet.t) (e : list Q) :
  IntervalSet.edges self = Ok e ->
  (2 <= length self)%nat /\ IntervalSet.is_contiguous self = true
  /\ length e = S (length self).
Proof.
  intros He. destruct self as [| x [| y l]]; [discriminate | discriminate |].
  assert (Hlen : (2 <= length (x :: y :: l))%nat) by (cbn; lia).
  destruct (IntervalSet.is_contiguous (x :: y :: l)) eqn:Hc.
  - split; [exact Hlen | split; [reflexivity |]].
    destruct (edges_contiguous _ Hlen Hc) as (ls & _ & He').
    assert (E : e = IntervalSet.starts
                      (py_sorted Interval.start (x :: y :: l)) ++ [ls])
      by congruence.
    rewrite E. unfold IntervalSet.starts.
    rewrite length_app, length_map, py_sorted_length. cbn. lia.
  - unfold IntervalSet.edges in He. rewrite Hc in He. discriminate.
Qed.

Lemma searchsorted_range (a : list Q) (v : Q) :
  (searchsorted a v <= length a)%nat.
Proof.
  induction a as [| x a IH]; cbn [searchsorted length]; [lia |].
  destruct (Qltb x v); lia.
Qed.

Lemma searchsorted_all_below (a : list Q) (v : Q) :
  Forall (fun x => x < v) a -> searchsorted a v = length a.
Proof.
  induction 1 as [| x a Hx _ IH]; cbn [searchsorted length]; [reflexivity |].
  apply Qltb_lt in Hx. now rewrite Hx, IH.
Qed.

Lemma searchsorted_at_or_below_first (x : Q) (a : list Q) (v : Q) :
  v <= x -> searchsorted (x :: a) v = 0%nat.
Proof.
  intros H. cbn. apply Qltb_ge in H. now rewrite H.
Qed.

(** Every element in front of the index returned is below the value. *)
Lemma searchsorted_below (a : list Q) (v : Q) (j : nat) :
  (j < searchsorted a v)%nat -> nth j a 0 < v.
Proof.
  revert j. induction a as [| x a IH]; intros j; cbn [searchsorted];
    [lia |].
  destruct (Qltb x v) eqn:E; [| lia]. apply Qltb_lt in E.
  intros H. destruct j as [| j]; cbn [nth]; [exact E |]. apply IH. lia.
Qed.

(** On an ascending array no element from that index on is below it. *)
Lemma searchsorted_above (a : list Q) (v : Q) (j : nat) :
  StronglySorted Qle a ->
  (searchsorted a v <= j < length a)%nat -> v <= nth j a 0.
Proof.
  intros Hs. revert j.
  induction Hs as [| x a Hs IH Hx]; intros j; cbn [searchsorted length];
    [lia |].
  destruct (Qltb x v) eqn:E.
  - destruct j as [| j]; [lia |]. cbn [nth]. intros H. apply IH. lia.
  - apply Qltb_ge in E. intros H. destruct j as [| j]; cbn [nth]; [exact E |].
    rewrite Forall_forall in Hx. apply Qle_trans with x; [exact E |].
    apply Hx, nth_In. lia.
Qed.

(** Whenever [edges] succeeds, [containing_bin] returns an index between 0
    and [len(self)], both included: 0 for a value at or below the first
    edge, and [len(self)], one past the last interval, for a value above
    every edge. *)
Theorem containing_bin_range (self : IntervalSet.t) (e : list Q) (value : Q) :
  IntervalSet.edges self = Ok e ->
  exists idx,
    IntervalSet.containing_bin self value = Ok idx
    /\ (0 <= idx <= Z.of_nat (IntervalSet.len self))%Z
    /\ (Forall (fun x => x < value) e ->
        idx = Z.of_nat (IntervalSet.len self))
    /\ (forall x e', e = x :: e' -> value <= x -> idx = 0%Z).
Proof.
  intros He. destruct (edges_ok_inv self e He) as (Hlen & _ & Hle).
  unfold IntervalSet.containing_bin. rewrite He. cbn [bind].
  eexists. split; [reflexivity |].
  pose proof (searchsorted_range e value) as Hr.
  unfold IntervalSet.len. repeat split; try lia.
  - intros Hall. rewrite (searchsorted_all_below e value Hall), Hle. lia.
  - intros x e' -> Hv. rewrite (searchsorted_at_or_below_first x e' value Hv).
    lia.
Qed.

Lemma containing_bin_range_witness :
  exists idx,
    IntervalSet.containing_bin
      [Interval.mk 0 1; Interval.mk 1 2; Interval.mk 2 3] 10 = Ok idx
    /\ (0 <= idx <= 3)%Z
    /\ (Forall (fun x => x < 10) [0; 1; 2; 3] -> idx = 3%Z)
    /\ (forall x e', [0; 1; 2; 3] = x :: e' -> 10 <= x -> idx = 0%Z).
Proof.
  exact (containing_bin_range
           [Interval.mk 0 1; Interval.mk 1 2; Interval.mk 2 3]
           [0; 1; 2; 3] 10 eq_refl).
Defined.

Lemma sorted_map_key {A : Type} (key : A -> Q) (l : list A) :
  StronglySorted (key_le key) l -> StronglySorted Qle (map key l).
Proof.
  induction 1 as [| x l Hs IH Hx]; cbn; constructor; [exact IH |].
  rewrite Forall_map. exact Hx.
Qed.

Lemma sorted_snoc (l : list Q) (x : Q) :
  StronglySorted Qle l -> Forall (fun y => y <= x) l ->
  StronglySorted Qle (l ++ [x]).
Proof.
  induction 1 as [| y l Hs IH Hy]; cbn; intros Hx.
  - constructor; constructor.
  - inversion Hx as [| ? ? Hyx Hlx]; subst. constructor; [now apply IH |].
    apply Forall_app. split; [exact Hy | now constructor].
Qed.

Lemma sorted_last_max {A : Type} (key : A -> Q) (front : list A) (z : A) :
  StronglySorted (key_le key) (front ++ [z]) ->
  Forall (fun y => key y <= key z) (front ++ [z]).
Proof.
  induction front as [| x front IH]; cbn; intros Hs.
  - constructor; [apply Qle_refl | constructor].
  - inversion Hs as [| ? ? Hs' Hx]; subst. constructor; [| now apply IH].
    apply Forall_app in Hx as [_ Hz]. now inversion Hz.
Qed.

(** The edges of a set of valid intervals are ascending. *)
Lemma edges_ascending (self : IntervalSet.t) (e : list Q) :
  Forall Interval.valid self -> IntervalSet.edges self = Ok e ->
  StronglySorted Qle e.
Proof.
  intros Hv He. destruct (edges_ok_inv self e He) as (Hlen & Hc & _).
  destruct (edges_contiguous self Hlen Hc) as (ls & Hls & He').
  rewrite He in He'. inversion He'; subst e. clear He'.
  pose proof (py_sorted_sorted Interval.start self) as Hs.
  pose proof (Forall_valid_sorted self Hv) as Hvs.
  destruct (@exists_last _ (py_sorted Interval.start self))
    as [front [z Ez]].
  { intros E. apply (f_equal (@length Interval.t)) in E.
    rewrite py_sorted_length in E. cbn in E. lia. }
  rewrite Ez in *. unfold IntervalSet.stops in Hls.
  rewrite map_app in Hls. cbn [map] in Hls.
  rewrite last_item_app in Hls. inversion Hls; subst ls.
  apply sorted_snoc; [now apply sorted_map_key |].
  unfold IntervalSet.starts. rewrite Forall_map.
  apply sorted_last_max in Hs. rewrite Forall_forall in *. intros y Hy.
  apply Qle_trans with (Interval.start z); [now apply Hs |].
  apply Hvs, in_or_app. right. now left.
Qed.

(** Inside the span of the edges the lookup is right: a value above the
    first edge and not above the last one gets the index of the bin whose
    edges bracket it, an index of the set. *)
Theorem containing_bin_bracket (self : IntervalSet.t) (e : list Q)
        (value : Q) :
  Forall Interval.valid self -> IntervalSet.edges self = Ok e ->
  nth 0 e 0 < value -> value <= nth (IntervalSet.len self) e 0 ->
  exists i : nat,
    IntervalSet.containing_bin self value = Ok (Z.of_nat i)
    /\ (i < IntervalSet.len self)%nat
    /\ nth i e 0 < value /\ value <= nth (S i) e 0.
Proof.
  intros Hv He Hlo Hhi. unfold IntervalSet.len in *.
  destruct (edges_ok_inv self e He) as (Hlen & _ & Hle).
  pose proof (edges_ascending self e Hv He) as Hs.
  pose proof (searchsorted_range e value) as Hr.
  assert (H1 : (1 <= searchsorted e value)%nat).
  { destruct (searchsorted e value) eqn:E; [| lia]. exfalso.
    assert (value <= nth 0 e 0) by (apply searchsorted_above; [auto | lia]).
    lra. }
  assert (H2 : (searchsorted e value <= length self)%nat).
  { destruct (Nat.le_gt_cases (searchsorted e value) (length self)) as [H | H];
      [exact H | exfalso].
    assert (nth (length self) e 0 < value) by now apply searchsorted_below.
    lra. }
  exists (searchsorted e value - 1)%nat.
  unfold IntervalSet.containing_bin, IntervalSet.len. rewrite He. cbn [bind].
  split; [f_equal; lia | split; [lia | split]].
  - apply searchsorted_below. lia.
  - replace (S (searchsorted e value - 1)) with (searchsorted e value) by lia.
    apply searchsorted_above; [exact Hs | lia].
Qed.

Lemma containing_bin_bracket_witness :
  exists i : nat,
    IntervalSet.containing_bin
      [Interval.mk 0 1; Interval.mk 1 2; Interval.mk 2 3] (3 # 2)
    = Ok (Z.of_nat i)
    /\ (i < 3)%nat
    /\ nth i [0; 1; 2; 3] 0 < 3 # 2 /\ 3 # 2 <= nth (S i) [0; 1; 2; 3] 0.
Proof.
  apply (containing_bin_bracket
           [Interval.mk 0 1; Interval.mk 1 2; Interval.mk 2 3]
           [0; 1; 2; 3] (3 # 2)).
  - repeat constructor; cbv; discriminate.
  - reflexivity.
  - reflexivity.
  - cbv. discriminate.
Defined.

(** ** [IntervalSet.__eq__] *)

(** C4 at three pairs of sets: the order of distinct starts does not matter;
    a set of one interval compares equal to a set of two that begins with
    it, because [zip] stops at the shorter operand; and two intervals with
    the same start, stored in the two orders, compare unequal, because the
    sort looks at the start only and is stable. *)
Theorem eq_zip_truncates :
  IntervalSet.eq [Interval.mk 0 1; Interval.mk 2 3]
                 [Interval.mk 2 3; Interval.mk 0 1] = Ok true
  /\ IntervalSet.eq [Interval.mk 0 1]
                    [Interval.mk 0 1; Interval.mk 2 3] = Ok true
  /\ IntervalSet.eq [Interval.mk 0 1; Interval.mk 0 2]
                    [Interval.mk 0 2; Interval.mk 0 1] = Ok false.
Proof. repeat split; reflexivity. Qed.

(** ** What [IntervalSet.__eq__] compares *)

Lemma eq_spec (self other : IntervalSet.t) :
  self <> [] -> other <> [] ->
  IntervalSet.eq self other
  = Ok (IntervalSet.eq_loop
          (combine (py_sorted Interval.start self)
                   (py_sorted Interval.start other))).
Proof.
  intros Hs Ho. unfold IntervalSet.eq.
  now rewrite (sort_spec self Hs), (sort_spec other Ho).
Qed.

Lemma interval_eq_refl (i : Interval.t) : Interval.eq i i = true.
Proof.
  unfold Interval.eq. now rewrite !Qeq_bool_refl.
Qed.

Lemma eq_loop_prefix (s t : list Interval.t) :
  IntervalSet.eq_loop (combine s (s ++ t)) = true.
Proof.
  induction s as [| i s IH]; cbn; [reflexivity |].
  now rewrite interval_eq_refl.
Qed.

Lemma sorted_app_l {A : Type} (R : A -> A -> Prop) (l1 l2 : list A) :
  StronglySorted R (l1 ++ l2) -> StronglySorted R l1.
Proof.
  induction l1 as [| x l1 IH]; cbn; intros H; [constructor |].
  inversion H as [| ? ? Hs Hx]; subst. constructor; [now apply IH |].
  now apply Forall_app in Hx as [Hx _].
Qed.

(** A set compares equal to any longer set it is the beginning of: the loop
    of [__eq__] ends with the shorter operand. *)
Theorem eq_accepts_longer_set (s t : list Interval.t) :
  s <> [] -> StronglySorted (key_le Interval.start) (s ++ t) ->
  IntervalSet.eq s (s ++ t) = Ok true.
Proof.
  intros Hne Hs. rewrite eq_spec; [| exact Hne | now destruct s].
  rewrite (py_sorted_id _ _ Hs), (py_sorted_id _ _ (sorted_app_l _ _ _ Hs)).
  now rewrite eq_loop_prefix.
Qed.

Lemma eq_accepts_longer_set_witness :
  IntervalSet.eq [Interval.mk 0 1] ([Interval.mk 0 1] ++ [Interval.mk 2 3])
  = Ok true.
Proof.
  apply eq_accepts_longer_set; [discriminate |].
  repeat constructor; cbv; discriminate.
Defined.

(** ** [merge_intersecting_intervals] *)

Lemma merge_two_or_more (self : IntervalSet.t) (in_place : bool) :
  (2 <= length self)%nat ->
  IntervalSet.merge_intersecting_intervals self in_place
  = Raise AttributeError.
Proof.
  intros Hlen. unfold IntervalSet.merge_intersecting_intervals.
  rewrite sort_spec by (intros ->; cbn in Hlen; lia). cbn [bind].
  pose proof (py_sorted_length Interval.start self) as Hl.
  destruct (py_sorted Interval.start self) as [| a [| b l]];
    cbn [length] in Hl; try lia.
  reflexivity.
Qed.

(** C1 at (0,2), (1,3), and at every set of two or more intervals: the first
    statement of the loop calls [pop(0)] on the numpy array that [sort]
    returned, and the call raises AttributeError; no merged set comes
    back. *)
Theorem merge_raises_attribute_error :
  IntervalSet.merge_intersecting_intervals
    [Interval.mk 0 2; Interval.mk 1 3] false = Raise AttributeError
  /\ (forall (self : IntervalSet.t) (in_place : bool),
         (2 <= length self)%nat ->
         IntervalSet.merge_intersecting_intervals self in_place
         = Raise AttributeError).
Proof.
  split; [reflexivity |]. intros self in_place. apply merge_two_or_more.
Qed.

(** [merge_intersecting_intervals] returns on sets of exactly one interval
    and on no other: there the output holds that interval (with [in_place]
    it becomes the receiver and None is returned); the empty set raises
    TypeError, in [sort], and a set of two or more intervals raises
    AttributeError, at [pop(0)]. *)
Theorem merge_outcomes (self : IntervalSet.t) (in_place : bool) :
  (self = [] ->
   IntervalSet.merge_intersecting_intervals self in_place = Raise TypeError)
  /\ (forall x, self = [x] ->
        IntervalSet.merge_intersecting_intervals self in_place
        = Ok (if in_place then ([x], None) else ([x], Some [x])))
  /\ ((2 <= length self)%nat ->
      IntervalSet.merge_intersecting_intervals self in_place
      = Raise AttributeError)
  /\ ((exists r, IntervalSet.merge_intersecting_intervals self in_place = Ok r)
      <-> length self = 1%nat).
Proof.
  split; [intros ->; reflexivity |].
  split; [intros x ->; now destruct in_place |].
  split; [apply merge_two_or_more |].
  destruct self as [| x [| y l]].
  - split; [intros [r H]; discriminate | discriminate].
  - split; [reflexivity |]. intros _. destruct in_place; eexists; reflexivity.
  - rewrite merge_two_or_more by (cbn; lia).
    split; [intros [r H]; discriminate | cbn; lia].
Qed.

(** ** The one-pass matcher against the regular expression *)

Lemma take_drop_while (p : ascii -> bool) (s : list ascii) :
  take_while p s ++ drop_while p s = s.
Proof.
  induction s as [| c s IH]; cbn; [reflexivity |].
  destruct (p c); cbn; [now rewrite IH | reflexivity].
Qed.

Lemma take_while_all (p : ascii -> bool) (s : list ascii) :
  forallb p (take_while p s) = true.
Proof.
  induction s as [| c s IH]; cbn; [reflexivity |].
  destruct (p c) eqn:E; cbn; [now rewrite E | reflexivity].
Qed.

Lemma take_while_app (p : ascii -> bool) (d s : list ascii) :
  forallb p d = true -> take_while p (d ++ s) = d ++ take_while p s.
Proof.
  induction d as [| c d IH]; cbn; [reflexivity |].
  intros H. apply andb_prop in H as [Hc Hd]. now rewrite Hc, IH.
Qed.

Lemma drop_while_app (p : ascii -> bool) (d s : list ascii) :
  forallb p d = true -> drop_while p (d ++ s) = drop_while p s.
Proof.
  induction d as [| c d IH]; cbn; [reflexivity |].
  intros H. apply andb_prop in H as [Hc Hd]. now rewrite Hc, IH.
Qed.

Lemma star_class_iff (p : ascii -> bool) (s : list ascii) :
  matches (Star (Chr p)) s <-> forallb p s = true.
Proof.
  split.
  - intros H. remember (Star (Chr p)) as r eqn:Hr.
    induction H as [| | | | | r' s1 s2 H1 _ H2 IH]; try discriminate.
    + reflexivity.
    + inversion Hr; subst. inversion H1; subst. cbn.
      rewrite IH by reflexivity. now rewrite H0.
  - induction s as [| c s IH]; cbn; intros H.
    + constructor.
    + apply andb_prop in H as [Hc Hs].
      apply (matches_star_cons (Chr p) [c] s); [now constructor | auto].
Qed.

Lemma opt_char_iff (c : ascii) (s : list ascii) :
  matches (Opt (Chr (is_char c))) s <-> s = [] \/ s = [c].
Proof.
  split.
  - intros H. inversion H as [| | | r s' H' |  |]; subst; [now left |].
    inversion H' as [p x Hx | | | | |]; subst.
    unfold is_char in Hx. apply Ascii.eqb_eq in Hx. subst. now right.
  - intros [-> | ->]; [constructor |].
    apply matches_opt_some. constructor. apply Ascii.eqb_refl.
Qed.

Lemma number_pattern_shape (g : list ascii) :
  matches number_pattern g <-> number_shape g.
Proof.
  unfold number_pattern, number_shape, Plus. split.
  - intros H.
    inversion H as [| r1 r2 m s1 Hm H1 | | | |]; subst; clear H.
    inversion H1 as [| r1 r2 p s2 Hp H2 | | | |]; subst; clear H1.
    inversion H2 as [| r1 r2 d s3 Hd H3 | | | |]; subst; clear H2.
    inversion H3 as [| r1 r2 pt f Hpt Hf | | | |]; subst; clear H3.
    inversion Hd as [| r1 r2 d1 d2 Hd1 Hd2 | | | |]; subst; clear Hd.
    inversion Hd1 as [q c Hc | | | | |]; subst; clear Hd1.
    apply star_class_iff in Hd2, Hf. apply opt_char_iff in Hm, Hp, Hpt.
    exists m, p, ([c] ++ d2), pt, f.
    repeat split; try assumption; [discriminate | cbn; now rewrite Hc].
  - intros (m & p & d & pt & f & -> & Hm & Hp & Hne & Hd & Hpt & Hf).
    apply opt_char_iff in Hm, Hp, Hpt. apply star_class_iff in Hf.
    destruct d as [| c d]; [congruence |]. cbn in Hd.
    apply andb_prop in Hd as [Hc Hd]. apply star_class_iff in Hd.
    repeat (apply matches_seq; try assumption).
    apply (matches_seq (Chr is_digit) (Star (Chr is_digit)) [c] d);
      [now constructor | assumption].
Qed.

(** Bring both sides of an equation between concatenations to the same
    nesting. *)
Ltac list_assoc :=
  cbn [app];
  repeat first [rewrite <- app_assoc | rewrite <- app_comm_cons];
  try reflexivity.

Lemma optional_spec (c : ascii) (s m r : list ascii) :
  optional c s = (m, r) -> s = m ++ r /\ (m = [] \/ m = [c]).
Proof.
  unfold optional. destruct s as [| x s]; [intros H; inversion H; auto |].
  destruct (Ascii.eqb x c) eqn:E; intros H; inversion H; subst; cbn; auto.
  apply Ascii.eqb_eq in E. subst. auto.
Qed.

Lemma match_number_sound (s g r : list ascii) :
  match_number s = Some (g, r) -> s = g ++ r /\ number_shape g.
Proof.
  unfold match_number.
  destruct (optional minus_sign s) as [m s1] eqn:Hm.
  destruct (optional plus_sign s1) as [p s2] eqn:Hp.
  destruct (take_while is_digit s2) as [| c d] eqn:Hd; [discriminate |].
  destruct (optional dot (drop_while is_digit s2)) as [pt s4] eqn:Hpt.
  intros H. inversion H; subst; clear H.
  apply optional_spec in Hm as [-> Hm], Hp as [-> Hp], Hpt as [Hs3 Hpt].
  split.
  - rewrite <- (take_drop_while is_digit s2), Hd, Hs3.
    rewrite <- (take_drop_while is_digit s4) at 1.
    list_assoc.
  - exists m, p, (c :: d), pt, (take_while is_digit s4).
    repeat split; try assumption; try discriminate.
    + rewrite <- Hd. apply take_while_all.
    + apply take_while_all.
Qed.

Lemma drop_while_not (p : ascii -> bool) (s : list ascii) :
  match drop_while p s with
  | [] => True
  | c :: _ => p c = false
  end.
Proof.
  induction s as [| c s IH]; cbn; [exact I |].
  destruct (p c) eqn:E; [exact IH | exact E].
Qed.

(** What [re_match] returns is a match of the pattern at the start of the
    text, with the two groups it captured. *)
Lemma re_match_sound (s g1 g2 : list ascii) :
  re_match s = Some (g1, g2) ->
  number_shape g1 /\ number_shape g2
  /\ exists ws1 ws2 rest,
      forallb is_space ws1 = true /\ forallb is_space ws2 = true
      /\ s = g1 ++ ws1 ++ [minus_sign] ++ ws2 ++ g2 ++ rest.
Proof.
  unfold re_match.
  destruct (match_number s) as [[h1 r1] |] eqn:H1; [| discriminate].
  destruct (drop_while is_space r1) as [| c r2] eqn:Hr1; [discriminate |].
  destruct (Ascii.eqb c minus_sign) eqn:Hc; [| discriminate].
  destruct (match_number (drop_while is_space r2)) as [[h2 r3] |] eqn:H2;
    [| discriminate].
  intros H. inversion H; subst; clear H.
  apply Ascii.eqb_eq in Hc. subst c.
  apply match_number_sound in H1 as [Hs Hg1], H2 as [Hr2 Hg2].
  split; [exact Hg1 | split; [exact Hg2 |]].
  exists (take_while is_space r1), (take_while is_space r2), r3.
  split; [apply take_while_all | split; [apply take_while_all |]].
  rewrite Hs. f_equal.
  rewrite <- (take_drop_while is_space r1) at 1. f_equal.
  rewrite Hr1. cbn [app]. f_equal.
  rewrite <- (take_drop_while is_space r2) at 1. f_equal.
  exact Hr2.
Qed.

Lemma shape_matches_prefix (g1 ws1 ws2 g2 rest : list ascii) :
  number_shape g1 -> number_shape g2 ->
  forallb is_space ws1 = true -> forallb is_space ws2 = true ->
  matches_prefix interval_pattern
                 (g1 ++ ws1 ++ [minus_sign] ++ ws2 ++ g2 ++ rest).
Proof.
  intros H1 H2 Hw1 Hw2.
  exists (g1 ++ ws1 ++ [minus_sign] ++ ws2 ++ g2), rest. split.
  - now rewrite <- !app_assoc.
  - unfold interval_pattern.
    apply matches_seq; [now apply number_pattern_shape |].
    apply matches_seq; [now apply star_class_iff |].
    apply matches_seq; [constructor; apply Ascii.eqb_refl |].
    apply matches_seq; [now apply star_class_iff |].
    now apply number_pattern_shape.
Qed.

Lemma matches_prefix_shape (s : list ascii) :
  matches_prefix interval_pattern s ->
  exists g1 ws1 ws2 g2 rest,
    number_shape g1 /\ number_shape g2
    /\ forallb is_space ws1 = true /\ forallb is_space ws2 = true
    /\ s = g1 ++ ws1 ++ [minus_sign] ++ ws2 ++ g2 ++ rest.
Proof.
  intros (pre & rest & -> & H). unfold interval_pattern in H.
  inversion H as [| r1 r2 g1 s1 Hg1 H1 | | | |]; subst; clear H.
  inversion H1 as [| r1 r2 ws1 s2 Hw1 H2 | | | |]; subst; clear H1.
  inversion H2 as [| r1 r2 dash s3 Hdash H3 | | | |]; subst; clear H2.
  inversion H3 as [| r1 r2 ws2 g2 Hw2 Hg2 | | | |]; subst; clear H3.
  inversion Hdash as [q c Hc | | | | |]; subst; clear Hdash.
  unfold is_char in Hc. apply Ascii.eqb_eq in Hc. subst c.
  apply number_pattern_shape in Hg1, Hg2. apply star_class_iff in Hw1, Hw2.
  exists g1, ws1, ws2, g2, rest.
  repeat split; try assumption. now rewrite <- !app_assoc.
Qed.

Lemma digit_not_other (c : ascii) :
  is_digit c = true ->
  Ascii.eqb c minus_sign = false /\ Ascii.eqb c plus_sign = false
  /\ Ascii.eqb c dot = false /\ is_space c = false.
Proof.
  intros H. repeat split.
  1-3: apply not_true_iff_false; intros E; apply Ascii.eqb_eq in E;
    subst c; discriminate H.
  unfold is_digit, is_space in *.
  apply andb_prop in H as [H1 H2]. apply Nat.leb_le in H1.
  apply orb_false_iff. split.
  - apply Nat.eqb_neq. lia.
  - apply andb_false_iff. right. apply Nat.leb_gt. lia.
Qed.

Lemma optional_take (c : ascii) (s : list ascii) :
  optional c (c :: s) = ([c], s).
Proof. unfold optional. now rewrite Ascii.eqb_refl. Qed.

Lemma optional_skip (c x : ascii) (s : list ascii) :
  Ascii.eqb x c = false -> optional c (x :: s) = ([], x :: s).
Proof. unfold optional. now intros ->. Qed.

(** The two optional signs in front of a digit are read as written. *)
Lemma signs_stage (m p : list ascii) (c : ascii) (s : list ascii) :
  (m = [] \/ m = [minus_sign]) -> (p = [] \/ p = [plus_sign]) ->
  is_digit c = true ->
  optional minus_sign (m ++ p ++ c :: s) = (m, p ++ c :: s)
  /\ optional plus_sign (p ++ c :: s) = (p, c :: s).
Proof.
  intros Hm Hp Hc. destruct (digit_not_other c Hc) as (Em & Ep & _).
  destruct Hm as [-> | ->], Hp as [-> | ->]; cbn [app]; split;
    first [apply optional_take | now apply optional_skip].
Qed.

Lemma take_while_stop (rest : list ascii) :
  ends_number rest ->
  take_while is_digit rest = [] /\ drop_while is_digit rest = rest
  /\ optional dot rest = ([], rest).
Proof.
  destruct rest as [| c rest]; cbn; [auto |].
  intros [-> Hd]. repeat split. now apply optional_skip.
Qed.

Lemma digits_stage (d pt f rest : list ascii) :
  forallb is_digit d = true -> (pt = [] \/ pt = [dot]) ->
  forallb is_digit f = true -> ends_number rest ->
  exists d' pt' f',
    take_while is_digit (d ++ pt ++ f ++ rest) = d'
    /\ optional dot (drop_while is_digit (d ++ pt ++ f ++ rest))
       = (pt', f' ++ rest)
    /\ take_while is_digit (f' ++ rest) = f'
    /\ drop_while is_digit (f' ++ rest) = rest
    /\ d' ++ pt' ++ f' = d ++ pt ++ f
    /\ (d <> [] -> d' <> []).
Proof.
  intros Hd Hpt Hf Hrest.
  destruct (take_while_stop rest Hrest) as (Ht & Hdr & Ho).
  rewrite (take_while_app _ d _ Hd), (drop_while_app _ d _ Hd).
  destruct Hpt as [-> | ->]; cbn [app].
  - exists (d ++ f), [], []. cbn [app].
    rewrite (take_while_app _ f _ Hf), (drop_while_app _ f _ Hf).
    rewrite Ht, Hdr, Ho, !app_nil_r. repeat split; auto.
    destruct d; [congruence | discriminate].
  - exists d, [dot], f.
    change (take_while is_digit (dot :: f ++ rest)) with (@nil ascii).
    change (drop_while is_digit (dot :: f ++ rest)) with (dot :: f ++ rest).
    rewrite optional_take, app_nil_r.
    rewrite (take_while_app _ f _ Hf), (drop_while_app _ f _ Hf).
    rewrite Ht, Hdr, app_nil_r. repeat split; auto.
Qed.

(** In front of something that ends a number, the matcher reads a text of
    [number_pattern] whole. *)
Lemma match_number_exact (g rest : list ascii) :
  number_shape g -> ends_number rest ->
  match_number (g ++ rest) = Some (g, rest).
Proof.
  intros (m & p & d & pt & f & -> & Hm & Hp & Hne & Hd & Hpt & Hf) Hrest.
  destruct d as [| c d]; [congruence |].
  pose proof Hd as Hcd. cbn in Hcd. apply andb_prop in Hcd as [Hc _].
  destruct (digits_stage (c :: d) pt f rest Hd Hpt Hf Hrest)
    as (d' & pt' & f' & Ht & Ho & Htf & Hdf & Heq & Hne').
  destruct (signs_stage m p c (d ++ pt ++ f ++ rest) Hm Hp Hc) as [Sm Sp].
  unfold match_number.
  replace ((m ++ p ++ (c :: d) ++ pt ++ f) ++ rest)
    with (m ++ p ++ c :: d ++ pt ++ f ++ rest) by list_assoc.
  rewrite Sm, Sp.
  change (c :: d ++ pt ++ f ++ rest) with ((c :: d) ++ pt ++ f ++ rest).
  rewrite Ht, Ho, Htf, Hdf.
  destruct d' as [| c' d'].
  - now destruct (Hne' Hne).
  - rewrite Heq. reflexivity.
Qed.

(** Whatever follows, the matcher reads some number off a text that starts
    with one. *)
Lemma match_number_some (g rest : list ascii) :
  number_shape g -> match_number (g ++ rest) <> None.
Proof.
  intros (m & p & d & pt & f & -> & Hm & Hp & Hne & Hd & Hpt & Hf).
  destruct d as [| c d]; [congruence |].
  cbn in Hd. apply andb_prop in Hd as [Hc _].
  destruct (signs_stage m p c (d ++ pt ++ f ++ rest) Hm Hp Hc) as [Sm Sp].
  unfold match_number.
  replace ((m ++ p ++ (c :: d) ++ pt ++ f) ++ rest)
    with (m ++ p ++ c :: d ++ pt ++ f ++ rest) by list_assoc.
  rewrite Sm, Sp. cbn [take_while]. rewrite Hc.
  destruct (optional dot (drop_while is_digit (c :: d ++ pt ++ f ++ rest))).
  discriminate.
Qed.

Lemma space_not_other (c : ascii) :
  is_space c = true ->
  is_digit c = false /\ Ascii.eqb c dot = false.
Proof.
  intros H. split.
  - destruct (is_digit c) eqn:E; [| reflexivity].
    apply digit_not_other in E. destruct E as (_ & _ & _ & E). congruence.
  - apply not_true_iff_false. intros E. apply Ascii.eqb_eq in E. subst c.
    discriminate H.
Qed.

Lemma number_shape_head (g : list ascii) :
  number_shape g -> exists c g', g = c :: g' /\ is_space c = false.
Proof.
  intros (m & p & d & pt & f & -> & Hm & Hp & Hne & Hd & Hpt & Hf).
  destruct d as [| c d]; [congruence |].
  cbn in Hd. apply andb_prop in Hd as [Hc _].
  apply digit_not_other in Hc. destruct Hc as (_ & _ & _ & Hc).
  destruct Hm as [-> | ->], Hp as [-> | ->]; cbn [app]; eauto.
Qed.

Lemma separator_ends_number (ws x : list ascii) :
  forallb is_space ws = true -> ends_number (ws ++ minus_sign :: x).
Proof.
  destruct ws as [| c ws]; cbn.
  - intros _. split; reflexivity.
  - intros H. apply andb_prop in H as [Hc _]. now apply space_not_other.
Qed.

(** The matcher finds every match of the pattern, and its first group is the
    only text the first number of a match can be. *)
Lemma re_match_complete (g1 ws1 ws2 g2 rest : list ascii) :
  number_shape g1 -> number_shape g2 ->
  forallb is_space ws1 = true -> forallb is_space ws2 = true ->
  exists g2',
    re_match (g1 ++ ws1 ++ [minus_sign] ++ ws2 ++ g2 ++ rest)
    = Some (g1, g2').
Proof.
  intros H1 H2 Hw1 Hw2. unfold re_match. cbn [app].
  rewrite (match_number_exact g1 _ H1 (separator_ends_number ws1 _ Hw1)).
  rewrite (drop_while_app _ ws1 _ Hw1).
  change (drop_while is_space (minus_sign :: ws2 ++ g2 ++ rest))
    with (minus_sign :: ws2 ++ g2 ++ rest).
  cbv beta iota.
  rewrite Ascii.eqb_refl, (drop_while_app _ ws2 _ Hw2).
  destruct (number_shape_head g2 H2) as (c & g' & Hg & Hc).
  assert (Hd : drop_while is_space (g2 ++ rest) = g2 ++ rest).
  { rewrite Hg. cbn. now rewrite Hc. }
  rewrite Hd.
  destruct (match_number (g2 ++ rest)) as [[h r] |] eqn:E.
  - now exists h.
  - now destruct (match_number_some g2 rest H2).
Qed.

(** [re_match] decides the pattern: it returns [None] exactly on the texts
    that no match of the regular expression starts. *)
Lemma re_match_none_iff (s : list ascii) :
  re_match s = None <-> ~ matches_prefix interval_pattern s.
Proof.
  split.
  - intros Hn Hm. apply matches_prefix_shape in Hm.
    destruct Hm as (g1 & ws1 & ws2 & g2 & rest & H1 & H2 & Hw1 & Hw2 & ->).
    destruct (re_match_complete g1 ws1 ws2 g2 rest H1 H2 Hw1 Hw2) as [h Hh].
    congruence.
  - intros Hm. destruct (re_match s) as [[g1 g2] |] eqn:E; [| reflexivity].
    exfalso. apply Hm. apply re_match_sound in E.
    destruct E as (H1 & H2 & ws1 & ws2 & rest & Hw1 & Hw2 & ->).
    now apply shape_matches_prefix.
Qed.

(** ** [float] on the groups of the pattern *)

Lemma unsigned_decimal_digits (d pt f : list ascii) :
  d <> [] -> forallb is_digit d = true -> (pt = [] \/ pt = [dot]) ->
  forallb is_digit f = true ->
  exists q, unsigned_decimal (d ++ pt ++ f) = Some q.
Proof.
  intros Hne Hd Hpt Hf. unfold unsigned_decimal.
  rewrite (take_while_app _ d _ Hd), (drop_while_app _ d _ Hd).
  destruct Hpt as [-> | ->]; cbn [app].
  - replace f with (f ++ []) by apply app_nil_r.
    rewrite (take_while_app _ f _ Hf), (drop_while_app _ f _ Hf). cbn.
    destruct d; [congruence | cbn; eauto].
  - change (drop_while is_digit (dot :: f)) with (dot :: f).
    change (take_while is_digit (dot :: f)) with (@nil ascii).
    cbv beta iota zeta.
    rewrite Ascii.eqb_refl, Hf, app_nil_r.
    destruct d; [congruence | cbn; eauto].
Qed.

(** [float] accepts a group unless it is written with both signs. *)
Lemma float_of_group (g : list ascii) :
  number_shape g ->
  (exists q, float g = Ok q)
  \/ (float g = Raise ValueError
      /\ exists t, g = minus_sign :: plus_sign :: t).
Proof.
  intros (m & p & d & pt & f & -> & Hm & Hp & Hne & Hd & Hpt & Hf).
  destruct (unsigned_decimal_digits d pt f Hne Hd Hpt Hf) as [q Hq].
  destruct d as [| c d]; [congruence |].
  pose proof Hd as Hcd. cbn in Hcd. apply andb_prop in Hcd as [Hc _].
  destruct (digit_not_other c Hc) as (Em & Ep & _).
  unfold float.
  destruct Hm as [-> | ->], Hp as [-> | ->]; cbn [app] in *.
  - left. rewrite Em, Ep, Hq. eauto.
  - left. change (Ascii.eqb plus_sign minus_sign) with false.
    rewrite Ascii.eqb_refl. cbn [app] in Hq. rewrite Hq. eauto.
  - left. rewrite Ascii.eqb_refl, Hq. eauto.
  - right. rewrite Ascii.eqb_refl. split; [reflexivity | eauto].
Qed.

(** ** [from_strings] *)

Lemma float_raises (g : list ascii) (e : exn) :
  float g = Raise e -> e = ValueError.
Proof.
  unfold float.
  destruct g as [| c g'];
    [| destruct (Ascii.eqb c minus_sign); [| destruct (Ascii.eqb c plus_sign)]];
    match goal with
    | |- context [unsigned_decimal ?b] => destruct (unsigned_decimal b)
    end; intros H; inversion H; reflexivity.
Qed.

Lemma new_interval_raises (a b : Q) (e : exn) :
  IntervalSet.new_interval a b = Raise e -> e = RuntimeError.
Proof.
  unfold IntervalSet.new_interval, Interval.init.
  destruct (Qltb b a); intros H; inversion H; reflexivity.
Qed.

Lemma from_strings_cons (token : String.string) (tokens : list String.string) :
  IntervalSet.from_strings (token :: tokens)
  = (i <- parse_token token ;;
     l <- IntervalSet.from_strings tokens ;;
     Ok (i :: l)).
Proof. reflexivity. Qed.

Lemma parse_token_unmatched (token : String.string) :
  parse_token token = Raise AttributeError
  <-> re_match (String.list_ascii_of_string token) = None.
Proof.
  unfold parse_token, IntervalSet._parse_interval.
  destruct (re_match (String.list_ascii_of_string token)) as [[g1 g2] |].
  - split; [| discriminate]. intros H. exfalso.
    destruct (float g1) as [a | e1] eqn:E1; cbn in H;
      [| apply float_raises in E1; congruence].
    destruct (float g2) as [b | e2] eqn:E2; cbn in H;
      [| apply float_raises in E2; congruence].
    apply new_interval_raises in H. discriminate.
  - split; reflexivity.
Qed.

Lemma parse_token_parses (token : String.string) (i : Interval.t) :
  parses_to token i -> parse_token token = Ok i.
Proof.
  intros (g1 & g2 & Hm & H1 & H2 & Hle).
  unfold parse_token, IntervalSet._parse_interval. rewrite Hm, H1. cbn [bind].
  rewrite H2. cbn [bind fst snd]. unfold IntervalSet.new_interval.
  rewrite (init_valid _ _ Hle). now destruct i.
Qed.

Lemma parse_token_inverted (token : String.string) (g1 g2 : list ascii)
      (a b : Q) :
  re_match (String.list_ascii_of_string token) = Some (g1, g2) ->
  float g1 = Ok a -> float g2 = Ok b -> b < a ->
  parse_token token = Raise RuntimeError.
Proof.
  intros Hm H1 H2 Hlt.
  unfold parse_token, IntervalSet._parse_interval. rewrite Hm, H1. cbn [bind].
  rewrite H2. cbn [bind fst snd]. unfold IntervalSet.new_interval.
  now apply init_inverted.
Qed.

(** C8, as the code has it: [from_strings] fails on a token that does not
    match the pattern, with the AttributeError of calling [groups] on the
    failed match; a call whose tokens all match, with numbers that [float]
    accepts and that are in order, returns one interval per token, in the
    order of the tokens, with the parsed numbers as bounds; a token that
    matches with its first number above its second fails with the
    RuntimeError of the Interval constructor. *)
Theorem from_strings_spec :
  (forall token : String.string,
      IntervalSet.from_strings [token] = Raise AttributeError
      <-> ~ matches_prefix interval_pattern
                           (String.list_ascii_of_string token))
  /\ (forall tokens : list String.string,
         Exists (fun token =>
                   ~ matches_prefix interval_pattern
                                    (String.list_ascii_of_string token))
                tokens ->
         exists e, IntervalSet.from_strings tokens = Raise e)
  /\ (forall (tokens : list String.string) (intervals : list Interval.t),
         Forall2 parses_to tokens intervals ->
         IntervalSet.from_strings tokens = Ok intervals)
  /\ (forall (token : String.string) (g1 g2 : list ascii) (a b : Q),
         re_match (String.list_ascii_of_string token) = Some (g1, g2) ->
         float g1 = Ok a -> float g2 = Ok b -> b < a ->
         IntervalSet.from_strings [token] = Raise RuntimeError).
Proof.
  split; [| split; [| split]].
  - intros token. rewrite <- re_match_none_iff, <- parse_token_unmatched.
    rewrite from_strings_cons.
    destruct (parse_token token) as [i | e]; cbn;
      split; intros H; inversion H; reflexivity.
  - intros tokens H. induction H as [token tokens H | token tokens _ IH].
    + apply re_match_none_iff, parse_token_unmatched in H.
      rewrite from_strings_cons, H. cbn. eauto.
    + rewrite from_strings_cons. destruct IH as [e He]. rewrite He.
      destruct (parse_token token); cbn; eauto.
  - intros tokens intervals H.
    induction H as [| token i tokens intervals Hp _ IH]; [reflexivity |].
    rewrite from_strings_cons, (parse_token_parses _ _ Hp), IH. reflexivity.
  - intros token g1 g2 a b Hm H1 H2 Hlt. rewrite from_strings_cons.
    now rewrite (parse_token_inverted token g1 g2 a b Hm H1 H2 Hlt).
Qed.

Lemma from_strings_spec_witness :
  IntervalSet.from_strings ["-10--5"%string; "0 - 10"%string]
  = Ok [Interval.mk (-10) (-5); Interval.mk 0 10].
Proof.
  apply (proj1 (proj2 (proj2 from_strings_spec))).
  constructor; [| constructor; [| constructor]];
    (eexists; eexists;
     split; [reflexivity | split; [reflexivity | split; [reflexivity |]]];
     cbv; discriminate).
Defined.

(** Counterexample to C8: the token 10-5 matches the pattern, and no
    interval comes out of it. *)
Lemma from_strings_inverted_token :
  matches_prefix interval_pattern (String.list_ascii_of_string "10-5")
  /\ re_match (String.list_ascii_of_string "10-5")
     = Some (String.list_ascii_of_string "10",
             String.list_ascii_of_string "5")
  /\ IntervalSet.from_strings ["10-5"%string] = Raise RuntimeError.
Proof.
  assert (H : re_match (String.list_ascii_of_string "10-5")
              = Some (String.list_ascii_of_string "10",
                      String.list_ascii_of_string "5")) by reflexivity.
  split; [| split; [exact H | reflexivity]].
  apply re_match_sound in H.
  destruct H as (H1 & H2 & ws1 & ws2 & rest & Hw1 & Hw2 & ->).
  now apply shape_matches_prefix.
Qed.

(** ** More on Interval: construction, and the algebra of [intersect] and
    [merge] *)

(** [Interval(start, stop)] raises RuntimeError exactly when [stop < start],
    and raises nothing else; with [swap_if_inverted] the constructor never
    raises and returns the interval from the smaller to the larger of the
    two values; every interval it returns has [start <= stop]. *)
Theorem interval_init_spec (a b : Q) :
  (Interval.init a b false = Raise RuntimeError <-> b < a)
  /\ (forall swap e,
         Interval.init a b swap = Raise e ->
         e = RuntimeError /\ swap = false /\ b < a)
  /\ (exists i,
         Interval.init a b true = Ok i
         /\ Interval.start i == Qmin a b /\ Interval.stop i == Qmax a b)
  /\ (a <= b -> forall swap, Interval.init a b swap = Ok (Interval.mk a b))
  /\ (forall swap i, Interval.init a b swap = Ok i -> Interval.valid i).
Proof.
  unfold Interval.init. split; [| split; [| split; [| split]]].
  - qcases; split; intros H; try assumption; try reflexivity;
      try discriminate; lra.
  - intros swap e. qcases; destruct swap; intros H; inversion H; auto.
  - qcases; eexists; (split; [reflexivity |]); cbn; split.
    + symmetry. apply Q.min_r. lra.
    + symmetry. apply Q.max_l. lra.
    + symmetry. apply Q.min_l. lra.
    + symmetry. apply Q.max_r. lra.
  - intros H swap. apply Qltb_ge in H. now rewrite H.
  - intros swap i. qcases; destruct swap; intros H; inversion H; subst;
      unfold Interval.valid; cbn; lra.
Qed.

Lemma overlaps_with_sym_valid (a b : Interval.t) :
  Interval.valid a -> Interval.valid b ->
  Interval.overlaps_with a b = true -> Interval.overlaps_with b a = true.
Proof.
  unfold Interval.valid. intros Ha Hb. rewrite !overlaps_with_iff. lra.
Qed.

(** When two valid intervals overlap, [intersect] and [merge] succeed with
    the operands in either order, and the two orders give results that are
    equal under [Interval.__eq__]; the intersection lies within both
    intervals and both lie within the merge. *)
Theorem intersect_merge_algebra (a b : Interval.t) :
  Interval.valid a -> Interval.valid b ->
  Interval.overlaps_with a b = true ->
  exists i m i' m',
    Interval.intersect a b = Ok i /\ Interval.merge a b = Ok m
    /\ Interval.intersect b a = Ok i' /\ Interval.merge b a = Ok m'
    /\ Interval.eq i i' = true /\ Interval.eq m m' = true
    /\ Interval.start m <= Interval.start a <= Interval.start i
    /\ Interval.start m <= Interval.start b <= Interval.start i
    /\ Interval.stop i <= Interval.stop a <= Interval.stop m
    /\ Interval.stop i <= Interval.stop b <= Interval.stop m.
Proof.
  intros Ha Hb Hov.
  pose proof (overlaps_with_sym_valid a b Ha Hb Hov) as Hov'.
  rewrite (intersect_overlapping a b Ha Hb Hov).
  rewrite (merge_overlapping a b Ha Hb Hov).
  rewrite (intersect_overlapping b a Hb Ha Hov').
  rewrite (merge_overlapping b a Hb Ha Hov').
  do 4 eexists. do 4 (split; [reflexivity |]).
  unfold Interval.eq, Interval.valid in *. cbn.
  rewrite andb_true_iff, !Qeq_bool_iff, andb_true_iff, !Qeq_bool_iff.
  unfold py_max, py_min. qcases; repeat split; lra.
Qed.

Lemma intersect_merge_algebra_witness :
  exists i m i' m',
    Interval.intersect (Interval.mk 0 2) (Interval.mk 1 3) = Ok i
    /\ Interval.merge (Interval.mk 0 2) (Interval.mk 1 3) = Ok m
    /\ Interval.intersect (Interval.mk 1 3) (Interval.mk 0 2) = Ok i'
    /\ Interval.merge (Interval.mk 1 3) (Interval.mk 0 2) = Ok m'
    /\ Interval.eq i i' = true /\ Interval.eq m m' = true
    /\ Interval.start m <= 0 <= Interval.start i
    /\ Interval.start m <= 1 <= Interval.start i
    /\ Interval.stop i <= 2 <= Interval.stop m
    /\ Interval.stop i <= 3 <= Interval.stop m.
Proof.
  apply (intersect_merge_algebra (Interval.mk 0 2) (Interval.mk 1 3));
    [cbv; discriminate | cbv; discriminate | reflexivity].
Defined.

(** ** More on [sort] and [argsort] *)

Lemma insert_by_filter {A : Type} (key : A -> Q) (q : Q) (x : A)
      (l : list A) :
  filter (fun i => Qeq_bool (key i) q) (insert_by key x l)
  = filter (fun i => Qeq_bool (key i) q) (x :: l).
Proof.
  induction l as [| y l IH]; [reflexivity |].
  cbn [insert_by]. destruct (Qltb (key y) (key x)) eqn:E; [| reflexivity].
  apply Qltb_lt in E. cbn [filter] in *. rewrite IH.
  destruct (Qeq_bool (key y) q) eqn:Ey, (Qeq_bool (key x) q) eqn:Ex;
    try reflexivity.
  apply Qeq_bool_iff in Ey, Ex. lra.
Qed.

Lemma py_sorted_filter {A : Type} (key : A -> Q) (q : Q) (l : list A) :
  filter (fun i => Qeq_bool (key i) q) (py_sorted key l)
  = filter (fun i => Qeq_bool (key i) q) l.
Proof.
  induction l as [| x l IH]; [reflexivity |].
  rewrite py_sorted_cons, insert_by_filter. cbn [filter]. now rewrite IH.
Qed.

(** [sort] raises TypeError on the empty set.  On any other set it returns
    the same intervals in ascending order of start; intervals with the same
    start keep the order they had (the sort is stable); and sorting the
    result again changes nothing. *)
Theorem sort_sorted_stable (self : IntervalSet.t) :
  (self = [] -> IntervalSet.sort self = Raise TypeError)
  /\ (self <> [] ->
      exists s,
        IntervalSet.sort self = Ok s
        /\ Permutation self s
        /\ StronglySorted (key_le Interval.start) s
        /\ (forall q,
               filter (fun i => Qeq_bool (Interval.start i) q) s
               = filter (fun i => Qeq_bool (Interval.start i) q) self)
        /\ IntervalSet.sort s = Ok s).
Proof.
  split; [intros ->; reflexivity |].
  intros Hne. exists (py_sorted Interval.start self).
  pose proof (py_sorted_sorted Interval.start self) as Hs.
  split; [now apply sort_spec |].
  split; [apply py_sorted_perm |].
  split; [exact Hs |].
  split; [intros q; apply py_sorted_filter |].
  rewrite sort_spec.
  - now rewrite (py_sorted_id _ _ Hs).
  - intros E. apply (f_equal (@length Interval.t)) in E.
    rewrite py_sorted_length in E. destruct self; [congruence | discriminate].
Qed.

Lemma enumerate_from_fst {A : Type} (n : nat) (l : list A) :
  map fst (enumerate_from n l) = seq n (length l).
Proof.
  revert n. induction l as [| x l IH]; intros n; cbn; [reflexivity |].
  now rewrite IH.
Qed.

(** [argsort] returns every index of the set once, and the intervals taken
    in that order are the set in ascending order of start. *)
Theorem argsort_permutes_indices (self : IntervalSet.t) :
  Permutation (seq 0 (length self)) (IntervalSet.argsort self)
  /\ exists s,
      getitems self (IntervalSet.argsort self) = Ok s
      /\ Permutation self s
      /\ StronglySorted (key_le Interval.start) s.
Proof.
  split.
  - rewrite argsort_spec. unfold enumerate.
    rewrite <- (enumerate_from_fst 0 self).
    apply Permutation_map, py_sorted_perm.
  - exists (py_sorted Interval.start self).
    split; [apply getitems_argsort |].
    split; [apply py_sorted_perm | apply py_sorted_sorted].
Qed.

(** ** [from_starts_and_stops] *)

Lemma mapM_new_interval_ok (pairs : list (Q * Q)) :
  Forall (fun p => fst p <= snd p) pairs ->
  mapM (fun p => IntervalSet.new_interval (fst p) (snd p)) pairs
  = Ok (map (fun p => Interval.mk (fst p) (snd p)) pairs).
Proof.
  induction 1 as [| p pairs Hp _ IH]; [reflexivity |].
  cbn [mapM map]. unfold IntervalSet.new_interval at 1.
  rewrite (init_valid _ _ Hp). cbn [bind]. now rewrite IH.
Qed.

Lemma mapM_new_interval_inverted (pairs : list (Q * Q)) :
  Exists (fun p => snd p < fst p) pairs ->
  mapM (fun p => IntervalSet.new_interval (fst p) (snd p)) pairs
  = Raise RuntimeError.
Proof.
  induction 1 as [p pairs Hp | p pairs _ IH]; cbn [mapM].
  - unfold IntervalSet.new_interval. now rewrite (init_inverted _ _ Hp).
  - destruct (IntervalSet.new_interval (fst p) (snd p)) as [i | e] eqn:E.
    + cbn [bind]. now rewrite IH.
    + apply new_interval_raises in E. now subst.
Qed.

Lemma map_fst_combine {A B : Type} (l : list A) (l' : list B) :
  length l = length l' -> map fst (combine l l') = l.
Proof.
  revert l'. induction l as [| x l IH]; intros [| y l'] H; cbn in *;
    try reflexivity; try discriminate.
  f_equal. apply IH. lia.
Qed.

Lemma map_snd_combine {A B : Type} (l : list A) (l' : list B) :
  length l = length l' -> map snd (combine l l') = l'.
Proof.
  revert l'. induction l as [| x l IH]; intros [| y l'] H; cbn in *;
    try reflexivity; try discriminate.
  f_equal. apply IH. lia.
Qed.

(** [from_starts_and_stops] raises AssertionError exactly when the two
    sequences differ in length; with equal lengths it raises RuntimeError
    when some start is above its stop, and otherwise returns the intervals
    pair by pair, in the order given: the [starts] and [stops] of the result
    are the two arguments. *)
Theorem from_starts_and_stops_spec (starts stops : list Q) :
  (IntervalSet.from_starts_and_stops starts stops = Raise AssertionError
   <-> length starts <> length stops)
  /\ (length starts = length stops ->
      Exists (fun p => snd p < fst p) (combine starts stops) ->
      IntervalSet.from_starts_and_stops starts stops = Raise RuntimeError)
  /\ (length starts = length stops ->
      Forall (fun p => fst p <= snd p) (combine starts stops) ->
      exists set,
        IntervalSet.from_starts_and_stops starts stops = Ok set
        /\ IntervalSet.starts set = starts
        /\ IntervalSet.stops set = stops).
Proof.
  unfold IntervalSet.from_starts_and_stops.
  destruct (Nat.eqb (length starts) (length stops)) eqn:E.
  - apply Nat.eqb_eq in E. split; [| split].
    + split; [| congruence]. intros H.
      destruct (mapM _ (combine starts stops)) as [l | e] eqn:Em;
        [discriminate |].
      assert (e = RuntimeError).
      { clear H. revert e Em. generalize (combine starts stops).
        induction l as [| p l IH]; cbn [mapM]; intros e; [discriminate |].
        destruct (IntervalSet.new_interval (fst p) (snd p)) as [i | e'] eqn:En.
        - cbn [bind]. destruct (mapM _ l) as [l' | e''] eqn:El; cbn [bind];
            [discriminate |]. intros He. inversion He; subst. now apply IH.
        - cbn [bind]. intros He. inversion He; subst.
          now apply new_interval_raises in En. }
      congruence.
    + intros _ H. now apply mapM_new_interval_inverted.
    + intros _ H. rewrite (mapM_new_interval_ok _ H). eexists.
      split; [reflexivity |].
      unfold IntervalSet.starts, IntervalSet.stops. rewrite !map_map. cbn.
      split.
      * change (fun x : Q * Q => fst x) with (@fst Q Q).
        now apply map_fst_combine.
      * change (fun x : Q * Q => snd x) with (@snd Q Q).
        now apply map_snd_combine.
  - apply Nat.eqb_neq in E. split; [| split]; try (intros; congruence).
    split; auto.
Qed.

(** Rebuilding a set of valid intervals from its own [starts] and [stops]
    gives the set back. *)
Theorem from_starts_and_stops_round_trip (self : IntervalSet.t) :
  Forall Interval.valid self ->
  IntervalSet.from_starts_and_stops (IntervalSet.starts self)
                                    (IntervalSet.stops self)
  = Ok self.
Proof.
  intros Hv. unfold IntervalSet.from_starts_and_stops,
               IntervalSet.starts, IntervalSet.stops.
  rewrite !length_map, Nat.eqb_refl.
  induction Hv as [| i self Hi _ IH]; [reflexivity |].
  cbn [map combine mapM fst snd]. unfold IntervalSet.new_interval at 1.
  rewrite (init_valid _ _ Hi). cbn [bind]. rewrite IH. now destruct i.
Qed.

Lemma from_starts_and_stops_round_trip_witness :
  IntervalSet.from_starts_and_stops
    (IntervalSet.starts [Interval.mk 2 3; Interval.mk 0 1])
    (IntervalSet.stops [Interval.mk 2 3; Interval.mk 0 1])
  = Ok [Interval.mk 2 3; Interval.mk 0 1].
Proof.
  apply (from_starts_and_stops_round_trip
           [Interval.mk 2 3; Interval.mk 0 1]).
  repeat constructor; cbv; discriminate.
Defined.

(** ** More on [edges] and [from_list_of_edges] *)

(** [edges] cannot be had from a set of fewer than two intervals: the call
    raises TypeError whatever the set holds. *)
Theorem edges_needs_two_intervals (self : IntervalSet.t) :
  (length self < 2)%nat -> IntervalSet.edges self = Raise TypeError.
Proof.
  intros H. destruct self as [| x [| y l]]; [reflexivity | reflexivity |].
  cbn in H. lia.
Qed.

Lemma edges_needs_two_intervals_witness :
  IntervalSet.edges [Interval.mk 0 1] = Raise TypeError.
Proof.
  apply (edges_needs_two_intervals [Interval.mk 0 1]). cbn. lia.
Defined.

(** Whenever [edges] succeeds on a set of valid intervals, the set has at
    least two intervals and is contiguous in its stored order, and the edges
    are ascending and one more than the intervals. *)
Theorem edges_shape (self : IntervalSet.t) (e : list Q) :
  Forall Interval.valid self -> IntervalSet.edges self = Ok e ->
  StronglySorted Qle e
  /\ length e = S (length self)
  /\ (2 <= length self)%nat
  /\ IntervalSet.is_contiguous self = true.
Proof.
  intros Hv He. destruct (edges_ok_inv self e He) as (Hlen & Hc & Hl).
  split; [now apply (edges_ascending self) | auto].
Qed.

Lemma edges_shape_witness :
  StronglySorted Qle [0; 1; 2]
  /\ length [0; 1; 2] = S (length [Interval.mk 0 1; Interval.mk 1 2])
  /\ (2 <= length [Interval.mk 0 1; Interval.mk 1 2])%nat
  /\ IntervalSet.is_contiguous [Interval.mk 0 1; Interval.mk 1 2] = true.
Proof.
  apply (edges_shape [Interval.mk 0 1; Interval.mk 1 2] [0; 1; 2]).
  - repeat constructor; cbv; discriminate.
  - reflexivity.
Defined.

Lemma adjacent_length {A : Type} (l : list A) :
  length (combine (removelast l) (tl l)) = pred (length l).
Proof.
  induction l as [| x [| y l] IH]; [reflexivity | reflexivity |].
  rewrite adjacent_cons. cbn [length] in *. now rewrite IH.
Qed.

Lemma adjacent_fst {A : Type} (l : list A) :
  map fst (combine (removelast l) (tl l)) = removelast l.
Proof.
  induction l as [| x [| y l] IH]; [reflexivity | reflexivity |].
  rewrite adjacent_cons. cbn [map fst]. rewrite IH. reflexivity.
Qed.

Lemma adjacent_snd {A : Type} (l : list A) :
  map snd (combine (removelast l) (tl l)) = tl l.
Proof.
  induction l as [| x [| y l] IH]; [reflexivity | reflexivity |].
  rewrite adjacent_cons. cbn [map snd]. rewrite IH. reflexivity.
Qed.

Lemma tl_removelast {A : Type} (l : list A) :
  tl (removelast l) = removelast (tl l).
Proof.
  destruct l as [| x [| y l]]; reflexivity.
Qed.

Lemma allclose_refl (l : list Q) (rtol : Q) :
  0 <= rtol -> allclose l l rtol = true.
Proof.
  intros Hr. unfold allclose. induction l as [| x l IH]; [reflexivity |].
  cbn [combine forallb fst snd]. rewrite IH, andb_true_r.
  unfold isclose. apply Qle_bool_iff.
  setoid_replace (x - x) with 0 by ring.
  pose proof (Qabs_nonneg x) as Hx.
  assert (0 <= rtol * Qabs x) by (apply Qmult_le_0_compat; assumption).
  unfold atol. cbn [Qabs Z.abs Qnum Qden]. lra.
Qed.

Lemma sorted_removelast (l : list Q) :
  StronglySorted Qle l -> StronglySorted Qle (removelast l).
Proof.
  intros H. destruct l as [| x l]; [constructor |].
  destruct (@exists_last _ (x :: l)) as [front [z E]]; [discriminate |].
  rewrite E in *. rewrite removelast_last. now apply sorted_app_l in H.
Qed.

Lemma sorted_starts {A : Type} (key : A -> Q) (l : list A) :
  StronglySorted Qle (map key l) -> StronglySorted (key_le key) l.
Proof.
  induction l as [| x l IH]; cbn; intros H; [constructor |].
  inversion H as [| ? ? Hs Hx]; subst. constructor; [now apply IH |].
  now rewrite Forall_map in Hx.
Qed.

(** The set [from_list_of_edges] returns, whatever the edges: it has one
    interval less than there are edges, its intervals are valid, it is
    contiguous and [sort] leaves it as it is; from three edges on, its
    [edges] are the sorted edges, which is what the argument holds after the
    call; with fewer edges, [edges] raises TypeError. *)
Theorem from_list_of_edges_round_trip (edges : list Q) :
  exists set,
    snd (IntervalSet.from_list_of_edges edges) = Ok set
    /\ length set = pred (length edges)
    /\ Forall Interval.valid set
    /\ IntervalSet.is_contiguous set = true
    /\ StronglySorted (key_le Interval.start) set
    /\ ((3 <= length edges)%nat ->
        IntervalSet.edges set = Ok (fst (IntervalSet.from_list_of_edges edges)))
    /\ ((length edges < 3)%nat -> IntervalSet.edges set = Raise TypeError).
Proof.
  unfold IntervalSet.from_list_of_edges. cbn [fst snd].
  set (l := py_sorted (fun x : Q => x) edges).
  assert (Hs : StronglySorted Qle l) by apply py_sorted_sorted.
  assert (Hl : length l = length edges) by apply py_sorted_length.
  set (set := map (fun p => Interval.mk (fst p) (snd p))
                  (combine (removelast l) (tl l))).
  assert (Hst : IntervalSet.starts set = removelast l).
  { unfold IntervalSet.starts, set. rewrite map_map. cbn [Interval.start].
    apply adjacent_fst. }
  assert (Hsp : IntervalSet.stops set = tl l).
  { unfold IntervalSet.stops, set. rewrite map_map. cbn [Interval.stop].
    apply adjacent_snd. }
  assert (Hlen : length set = pred (length edges)).
  { unfold set. now rewrite length_map, adjacent_length, Hl. }
  assert (Hc : IntervalSet.is_contiguous set = true).
  { unfold IntervalSet.is_contiguous, IntervalSet.is_contiguous_tol.
    fold (IntervalSet.starts set) (IntervalSet.stops set).
    rewrite Hst, Hsp, tl_removelast. apply allclose_refl. discriminate. }
  assert (Hss : StronglySorted (key_le Interval.start) set).
  { apply sorted_starts. fold (IntervalSet.starts set). rewrite Hst.
    now apply sorted_removelast. }
  exists set. split; [now apply new_interval_adjacent |].
  split; [exact Hlen |]. split; [| split; [exact Hc | split; [exact Hss |]]].
  - unfold set. rewrite Forall_map.
    clear -Hs. induction Hs as [| x l Hs IH Hx]; [constructor |].
    destruct l as [| y l]; [constructor |]. rewrite adjacent_cons.
    constructor; [| exact IH]. inversion Hx; subst. assumption.
  - split.
    + intros H3.
      destruct (edges_contiguous set) as (ls & Hls & He); [lia | exact Hc |].
      rewrite (py_sorted_id _ _ Hss) in *. rewrite He, Hst.
      rewrite Hsp in Hls. f_equal.
      destruct l as [| x [| y l']]; [cbn in Hl; lia | cbn in Hl; lia |].
      destruct (@exists_last _ (y :: l')) as [front [z E]]; [discriminate |].
      cbn [tl] in Hls. rewrite E in Hls. rewrite last_item_app in Hls.
      inversion Hls; subst ls.
      change (x :: y :: l') with ([x] ++ (y :: l')). rewrite E.
      rewrite app_assoc, removelast_last. reflexivity.
    + intros H3. clear -Hlen H3. clearbody set.
      destruct set as [| x [| y s]]; [reflexivity | reflexivity |].
      cbn in Hlen. lia.
Qed.

(** ** [absolute_start] and [absolute_stop] *)

Lemma fold_py_min_spec (l : list Q) (x : Q) :
  let r := fold_left py_min l x in
  In r (x :: l) /\ r <= x /\ Forall (fun y => r <= y) l.
Proof.
  revert x. induction l as [| y l IH]; intros x; cbn [fold_left].
  - cbn. split; [now left | split; [apply Qle_refl | constructor]].
  - destruct (IH (py_min x y)) as (Hin & Hle & Hall).
    assert (Hm : py_min x y <= x /\ py_min x y <= y
                 /\ (py_min x y = x \/ py_min x y = y)).
    { unfold py_min. qcases; repeat split; try lra; auto. }
    destruct Hm as (Hx & Hy & Hxy). cbn zeta. split; [| split].
    + destruct Hin as [Hin | Hin]; [| now right; right].
      rewrite <- Hin. destruct Hxy as [-> | ->]; [now left | now right; left].
    + lra.
    + constructor; [lra | exact Hall].
Qed.

Lemma fold_py_max_spec (l : list Q) (x : Q) :
  let r := fold_left py_max l x in
  In r (x :: l) /\ x <= r /\ Forall (fun y => y <= r) l.
Proof.
  revert x. induction l as [| y l IH]; intros x; cbn [fold_left].
  - cbn. split; [now left | split; [apply Qle_refl | constructor]].
  - destruct (IH (py_max x y)) as (Hin & Hle & Hall).
    assert (Hm : x <= py_max x y /\ y <= py_max x y
                 /\ (py_max x y = x \/ py_max x y = y)).
    { unfold py_max. qcases; repeat split; try lra; auto. }
    destruct Hm as (Hx & Hy & Hxy). cbn zeta. split; [| split].
    + destruct Hin as [Hin | Hin]; [| now right; right].
      rewrite <- Hin. destruct Hxy as [-> | ->]; [now left | now right; left].
    + lra.
    + constructor; [lra | exact Hall].
Qed.

Lemma absolute_start_spec (self : IntervalSet.t) :
  self <> [] ->
  exists lo,
    IntervalSet.absolute_start self = Ok lo
    /\ In lo (IntervalSet.starts self)
    /\ Forall (fun i => lo <= Interval.start i) self.
Proof.
  intros Hne. destruct self as [| i self]; [congruence |].
  unfold IntervalSet.absolute_start, IntervalSet.starts. cbn [map py_min_list].
  destruct (fold_py_min_spec (map Interval.start self) (Interval.start i))
    as (Hin & Hle & Hall).
  eexists. split; [reflexivity | split; [exact Hin |]].
  constructor; [exact Hle | now rewrite Forall_map in Hall].
Qed.

Lemma absolute_stop_spec (self : IntervalSet.t) :
  self <> [] ->
  exists hi,
    IntervalSet.absolute_stop self = Ok hi
    /\ In hi (IntervalSet.stops self)
    /\ Forall (fun i => Interval.stop i <= hi) self.
Proof.
  intros Hne. destruct self as [| i self]; [congruence |].
  unfold IntervalSet.absolute_stop, IntervalSet.stops. cbn [map py_max_list].
  destruct (fold_py_max_spec (map Interval.stop self) (Interval.stop i))
    as (Hin & Hle & Hall).
  eexists. split; [reflexivity | split; [exact Hin |]].
  constructor; [exact Hle | now rewrite Forall_map in Hall].
Qed.

(** [absolute_start] and [absolute_stop] raise ValueError on the empty set.
    On any other set they return one of the starts and one of the stops, and
    every interval of the set lies between the two; when the intervals are
    valid, [absolute_start <= absolute_stop]. *)
Theorem absolute_bounds (self : IntervalSet.t) :
  (self = [] ->
   IntervalSet.absolute_start self = Raise ValueError
   /\ IntervalSet.absolute_stop self = Raise ValueError)
  /\ (self <> [] ->
      exists lo hi,
        IntervalSet.absolute_start self = Ok lo
        /\ IntervalSet.absolute_stop self = Ok hi
        /\ In lo (IntervalSet.starts self)
        /\ In hi (IntervalSet.stops self)
        /\ Forall (fun i => lo <= Interval.start i /\ Interval.stop i <= hi)
                  self
        /\ (Forall Interval.valid self -> lo <= hi)).
Proof.
  split; [intros ->; split; reflexivity |].
  intros Hne.
  destruct (absolute_start_spec self Hne) as (lo & Hlo & Hinlo & Hall).
  destruct (absolute_stop_spec self Hne) as (hi & Hhi & Hinhi & Hall').
  exists lo, hi. repeat split; try assumption.
  - rewrite Forall_forall in *. intros i Hi. split; auto.
  - intros Hv. destruct self as [| i self]; [congruence |].
    inversion Hv; subst. inversion Hall; subst. inversion Hall'; subst.
    unfold Interval.valid in *. lra.
Qed.

(** The two bounds do not depend on the order in which the set stores its
    intervals. *)
Theorem absolute_bounds_order_independent (self other : IntervalSet.t)
        (lo hi : Q) :
  Permutation self other ->
  IntervalSet.absolute_start self = Ok lo ->
  IntervalSet.absolute_stop self = Ok hi ->
  exists lo' hi',
    IntervalSet.absolute_start other = Ok lo'
    /\ IntervalSet.absolute_stop other = Ok hi'
    /\ lo' == lo /\ hi' == hi.
Proof.
  intros Hp Hlo Hhi.
  assert (Hne : self <> []) by (intros ->; discriminate).
  assert (Hne' : other <> []).
  { intros ->. apply Permutation_sym, Permutation_nil in Hp. congruence. }
  destruct (absolute_start_spec self Hne) as (l1 & E1 & I1 & A1).
  destruct (absolute_stop_spec self Hne) as (h1 & F1 & J1 & B1).
  destruct (absolute_start_spec other Hne') as (l2 & E2 & I2 & A2).
  destruct (absolute_stop_spec other Hne') as (h2 & F2 & J2 & B2).
  rewrite Hlo in E1. rewrite Hhi in F1. inversion E1; inversion F1; subst.
  exists l2, h2. split; [exact E2 | split; [exact F2 |]].
  unfold IntervalSet.starts, IntervalSet.stops in *.
  apply in_map_iff in I1 as (i1 & <- & Hi1), I2 as (i2 & <- & Hi2).
  apply in_map_iff in J1 as (j1 & <- & Hj1), J2 as (j2 & <- & Hj2).
  rewrite Forall_forall in *.
  pose proof (A1 i2 (Permutation_in _ (Permutation_sym Hp) Hi2)).
  pose proof (A2 i1 (Permutation_in _ Hp Hi1)).
  pose proof (B1 j2 (Permutation_in _ (Permutation_sym Hp) Hj2)).
  pose proof (B2 j1 (Permutation_in _ Hp Hj1)).
  split; lra.
Qed.

Lemma absolute_bounds_order_independent_witness :
  exists lo' hi',
    IntervalSet.absolute_start [Interval.mk 0 1; Interval.mk 2 5] = Ok lo'
    /\ IntervalSet.absolute_stop [Interval.mk 0 1; Interval.mk 2 5] = Ok hi'
    /\ lo' == 0 /\ hi' == 5.
Proof.
  apply (absolute_bounds_order_independent
           [Interval.mk 2 5; Interval.mk 0 1]
           [Interval.mk 0 1; Interval.mk 2 5] 0 5).
  - apply perm_swap.
  - reflexivity.
  - reflexivity.
Defined.

(** ** [__getitem__], [pop] and [extend] *)

Lemma py_index_in_range (n : nat) (i : Z) :
  (- Z.of_nat n <= i < Z.of_nat n)%Z ->
  exists k,
    py_index n i = Some k /\ (k < n)%nat
    /\ Z.of_nat k = (if (i <? 0)%Z then i + Z.of_nat n else i)%Z.
Proof.
  intros H. unfold py_index. destruct (i <? 0)%Z eqn:E.
  - apply Z.ltb_lt in E.
    assert (E' : (i + Z.of_nat n <? 0)%Z = false) by (apply Z.ltb_ge; lia).
    rewrite E'. eexists. split; [reflexivity |]. lia.
  - apply Z.ltb_ge in E.
    assert (E' : (i <? Z.of_nat n)%Z = true) by (apply Z.ltb_lt; lia).
    rewrite E'. eexists. split; [reflexivity |]. lia.
Qed.

Lemma py_index_out_of_range (n : nat) (i : Z) :
  (i < - Z.of_nat n \/ Z.of_nat n <= i)%Z -> py_index n i = None.
Proof.
  intros H. unfold py_index. destruct (i <? 0)%Z eqn:E.
  - apply Z.ltb_lt in E.
    assert (E' : (i + Z.of_nat n <? 0)%Z = true) by (apply Z.ltb_lt; lia).
    now rewrite E'.
  - apply Z.ltb_ge in E.
    assert (E' : (i <? Z.of_nat n)%Z = false) by (apply Z.ltb_ge; lia).
    now rewrite E'.
Qed.

(** With [n] intervals in the set, [pop(index)] and indexing raise
    IndexError exactly when [index] is outside [-n, n).  Inside that range
    both give the same interval, the one at position [index], or
    [index + n] when [index] is negative, and [pop] leaves the others in
    their order. *)
Theorem pop_getitem_spec (self : IntervalSet.t) (index : Z) :
  ((index < - Z.of_nat (length self) \/ Z.of_nat (length self) <= index)%Z ->
   IntervalSet.pop self index = Raise IndexError
   /\ IntervalSet.__getitem__ self index = Raise IndexError)
  /\ ((- Z.of_nat (length self) <= index < Z.of_nat (length self))%Z ->
      exists front x back,
        self = front ++ x :: back
        /\ Z.of_nat (length front)
           = (if (index <? 0)%Z then index + Z.of_nat (length self)
              else index)%Z
        /\ IntervalSet.pop self index = Ok (front ++ back, x)
        /\ IntervalSet.__getitem__ self index = Ok x).
Proof.
  unfold IntervalSet.pop, IntervalSet.__getitem__. split.
  - intros H. now rewrite (py_index_out_of_range _ _ H).
  - intros H. destruct (py_index_in_range _ _ H) as (k & Hk & Hlt & Hz).
    rewrite Hk. destruct (nth_error self k) as [x |] eqn:Hn.
    2:{ apply nth_error_None in Hn. lia. }
    destruct (nth_error_split self k Hn) as (front & back & -> & Hf).
    exists front, x, back. unfold getitem. rewrite Hn. cbn [bind].
    split; [reflexivity |]. split; [now rewrite Hf |].
    split; [| reflexivity]. f_equal. f_equal. subst k.
    rewrite firstn_app, Nat.sub_diag, firstn_all. cbn [firstn].
    rewrite app_nil_r. f_equal.
    change (front ++ x :: back) with (front ++ [x] ++ back).
    rewrite app_assoc, skipn_app.
    rewrite length_app, Nat.add_1_r, Nat.sub_diag.
    rewrite skipn_all2 by (rewrite length_app; cbn; lia). reflexivity.
Qed.

(** [extend] adds the new intervals at the end, after it the set has the
    length of both together, and popping the last interval after extending
    by one interval gives that interval and the set as it was. *)
Theorem extend_pop_round_trip (self more : IntervalSet.t) (x : Interval.t) :
  IntervalSet.len (IntervalSet.extend self more)
  = (IntervalSet.len self + IntervalSet.len more)%nat
  /\ IntervalSet.pop (IntervalSet.extend self [x]) (-1) = Ok (self, x)
  /\ IntervalSet.__getitem__ (IntervalSet.extend self [x]) (-1) = Ok x.
Proof.
  unfold IntervalSet.extend, IntervalSet.len. split; [apply length_app |].
  assert (Hk : py_index (length (self ++ [x])) (-1) = Some (length self)).
  { unfold py_index. rewrite length_app. cbn [length].
    change (-1 <? 0)%Z with true. cbv beta iota.
    assert (E : (-1 + Z.of_nat (length self + 1) <? 0)%Z = false)
      by (apply Z.ltb_ge; lia).
    rewrite E. f_equal. lia. }
  assert (Hn : nth_error (self ++ [x]) (length self) = Some x).
  { rewrite nth_error_app2 by lia. now rewrite Nat.sub_diag. }
  unfold IntervalSet.pop, IntervalSet.__getitem__, getitem.
  rewrite Hk, Hn. cbn [bind]. split; [| reflexivity].
  f_equal. f_equal.
  rewrite firstn_app, Nat.sub_diag, firstn_all. cbn [firstn].
  rewrite skipn_all2 by (rewrite length_app; cbn; lia).
  now rewrite !app_nil_r.
Qed.

(** ** More on [IntervalSet.__eq__] *)

Lemma interval_eq_sym (a b : Interval.t) : Interval.eq a b = Interval.eq b a.
Proof.
  unfold Interval.eq.
  now rewrite (Qeq_bool_comm (Interval.start a)), (Qeq_bool_comm (Interval.stop a)).
Qed.

Lemma eq_loop_sym (s o : list Interval.t) :
  IntervalSet.eq_loop (combine s o) = IntervalSet.eq_loop (combine o s).
Proof.
  revert o. induction s as [| a s IH]; intros [| b o]; try reflexivity.
  cbn. rewrite (interval_eq_sym a b). now rewrite IH.
Qed.

Lemma eq_loop_Forall2 (s o : list Interval.t) :
  length s = length o ->
  IntervalSet.eq_loop (combine s o) = true
  <-> Forall2 (fun a b => Interval.eq a b = true) s o.
Proof.
  revert o. induction s as [| a s IH]; intros [| b o] Hl; try discriminate.
  - split; [constructor | reflexivity].
  - cbn in Hl. cbn [combine IntervalSet.eq_loop]. specialize (IH o).
    destruct (Interval.eq a b) eqn:E; cbn [negb].
    + rewrite IH by lia. split; [now constructor |].
      intros H. now inversion H.
    + split; [discriminate |]. intros H. inversion H. congruence.
Qed.

Lemma sort_ok_nonempty (self : IntervalSet.t) (s : list Interval.t) :
  IntervalSet.sort self = Ok s ->
  self <> [] /\ s = py_sorted Interval.start self.
Proof.
  intros H. destruct self as [| x l]; [discriminate |].
  split; [discriminate |]. rewrite sort_spec in H by discriminate.
  congruence.
Qed.

(** [==] between two sets raises TypeError exactly when one of them is
    empty; it gives the same answer with the operands swapped; a non-empty
    set equals itself; and between sets of the same length it holds exactly
    when the two sorted sequences agree interval by interval. *)
Theorem set_eq_properties (self other : IntervalSet.t) :
  (IntervalSet.eq self other = Raise TypeError <-> self = [] \/ other = [])
  /\ IntervalSet.eq self other = IntervalSet.eq other self
  /\ (self <> [] -> IntervalSet.eq self self = Ok true)
  /\ (length self = length other ->
      forall s o,
        IntervalSet.sort self = Ok s -> IntervalSet.sort other = Ok o ->
        (IntervalSet.eq self other = Ok true
         <-> Forall2 (fun a b => Interval.eq a b = true) s o)).
Proof.
  split; [| split; [| split]].
  - destruct self as [| x l]; [split; [now left | reflexivity] |].
    destruct other as [| y l'].
    + unfold IntervalSet.eq. rewrite sort_spec by discriminate.
      split; [now right | reflexivity].
    + rewrite eq_spec by discriminate.
      split; [discriminate | intros [H | H]; discriminate].
  - destruct self as [| x l], other as [| y l']; try reflexivity.
    + unfold IntervalSet.eq. now rewrite (sort_spec (y :: l')) by discriminate.
    + unfold IntervalSet.eq. now rewrite (sort_spec (x :: l)) by discriminate.
    + rewrite !eq_spec by discriminate. f_equal. apply eq_loop_sym.
  - intros Hne. rewrite eq_spec by assumption. f_equal.
    rewrite <- (app_nil_r (py_sorted Interval.start self)) at 2.
    apply eq_loop_prefix.
  - intros Hl s o Hs Ho.
    apply sort_ok_nonempty in Hs as [Hn ->], Ho as [Hn' ->].
    rewrite eq_spec by assumption.
    rewrite <- eq_loop_Forall2 by (now rewrite !py_sorted_length).
    split; [intros H; now inversion H | intros ->; reflexivity].
Qed.

Lemma sorted_perm_unique (s o : list Interval.t) :
  StronglySorted (key_le Interval.start) s ->
  StronglySorted (key_le Interval.start) o ->
  Permutation s o ->
  (forall a b, In a s -> In b s ->
               Interval.start a == Interval.start b -> a = b) ->
  s = o.
Proof.
  intros Hs. revert o. induction Hs as [| a s Hs IH Ha]; intros o Ho Hp Hinj.
  - now apply Permutation_nil in Hp.
  - destruct o as [| b o];
      [apply Permutation_sym, Permutation_nil in Hp; discriminate |].
    inversion Ho as [| ? ? Ho' Hb]; subst.
    assert (Hab : a = b).
    { assert (Hina : In a (b :: o))
        by (eapply Permutation_in; [exact Hp | now left]).
      assert (Hinb : In b (a :: s))
        by (eapply Permutation_in; [apply Permutation_sym, Hp | now left]).
      destruct Hina as [-> | Hina]; [reflexivity |].
      destruct Hinb as [-> | Hinb]; [reflexivity |].
      rewrite Forall_forall in Ha, Hb.
      apply Hinj; [now left | now right |].
      pose proof (Ha b Hinb). pose proof (Hb a Hina).
      unfold key_le in *. lra. }
    subst b. f_equal. apply IH; [exact Ho' | |].
    + now apply Permutation_cons_inv in Hp.
    + intros x y Hx Hy. apply Hinj; now right.
Qed.

(** Two sets that hold the same intervals in any order compare equal,
    provided no two different intervals of the set start at the same value.
    (Without the proviso the stable sort may leave the two sides in
    different orders.) *)
Theorem eq_order_independent (self other : IntervalSet.t) :
  self <> [] -> Permutation self other ->
  (forall a b, In a self -> In b self ->
               Interval.start a == Interval.start b -> a = b) ->
  IntervalSet.eq self other = Ok true.
Proof.
  intros Hne Hp Hinj.
  assert (Hne' : other <> []).
  { intros ->. apply Permutation_sym, Permutation_nil in Hp. congruence. }
  rewrite eq_spec by assumption.
  rewrite <- (sorted_perm_unique (py_sorted Interval.start self)
                                 (py_sorted Interval.start other)).
  - f_equal.
    rewrite <- (app_nil_r (py_sorted Interval.start self)) at 2.
    apply eq_loop_prefix.
  - apply py_sorted_sorted.
  - apply py_sorted_sorted.
  - rewrite <- (py_sorted_perm Interval.start self).
    now rewrite <- (py_sorted_perm Interval.start other).
  - intros a b Ha Hb. apply Hinj;
      (eapply Permutation_in; [apply Permutation_sym, py_sorted_perm |]);
      eassumption.
Qed.

Lemma eq_order_independent_witness :
  IntervalSet.eq [Interval.mk 0 1; Interval.mk 2 3; Interval.mk 5 6]
                 [Interval.mk 5 6; Interval.mk 0 1; Interval.mk 2 3]
  = Ok true.
Proof.
  apply eq_order_independent.
  - discriminate.
  - exact (Permutation_app_comm [Interval.mk 0 1; Interval.mk 2 3]
                                [Interval.mk 5 6]).
  - intros a b Ha Hb.
    cbn in Ha, Hb.
    destruct Ha as [<- | [<- | [<- | []]]], Hb as [<- | [<- | [<- | []]]];
      intros H; try reflexivity; exfalso; revert H; cbv; discriminate.
Defined.

(** ** What [_parse_interval] can raise *)

Lemma float_double_signed (t : list ascii) :
  float (minus_sign :: plus_sign :: t) = Raise ValueError.
Proof. reflexivity. Qed.

(** [_parse_interval] raises AttributeError exactly on the texts that no
    match of the pattern starts, and ValueError exactly on those that match
    with a number written with both signs (a minus followed by a plus); it
    raises nothing else, and otherwise returns what [float] makes of the
    two groups. *)
Theorem parse_interval_outcomes (token : String.string) :
  (IntervalSet._parse_interval token = Raise AttributeError
   <-> ~ matches_prefix interval_pattern (String.list_ascii_of_string token))
  /\ (IntervalSet._parse_interval token = Raise ValueError
      <-> exists g1 g2 t,
          re_match (String.list_ascii_of_string token) = Some (g1, g2)
          /\ (g1 = minus_sign :: plus_sign :: t
              \/ g2 = minus_sign :: plus_sign :: t))
  /\ (forall e, IntervalSet._parse_interval token = Raise e ->
                e = AttributeError \/ e = ValueError)
  /\ (forall a b, IntervalSet._parse_interval token = Ok (a, b) ->
                  exists g1 g2,
                    re_match (String.list_ascii_of_string token)
                    = Some (g1, g2)
                    /\ float g1 = Ok a /\ float g2 = Ok b).
Proof.
  rewrite <- re_match_none_iff. unfold IntervalSet._parse_interval.
  destruct (re_match (String.list_ascii_of_string token)) as [[g1 g2] |] eqn:Hm.
  - destruct (re_match_sound _ _ _ Hm) as (H1 & H2 & _).
    destruct (float_of_group g1 H1) as [[a Ha] | [Ha [t1 E1]]];
      destruct (float_of_group g2 H2) as [[b Hb] | [Hb [t2 E2]]];
      rewrite Ha; cbn [bind]; try rewrite Hb; cbn [bind].
    + split; [split; discriminate |]. split; [| split].
      * split; [discriminate |].
        intros (h1 & h2 & t & E & [Ht | Ht]); inversion E; subst;
          rewrite float_double_signed in *; discriminate.
      * discriminate.
      * intros a' b' E. inversion E; subst. eauto.
    + split; [split; discriminate |]. split; [| split].
      * split; [intros _; exists g1, g2, t2; auto | reflexivity].
      * intros e E. inversion E. auto.
      * discriminate.
    + split; [split; discriminate |]. split; [| split].
      * split; [intros _; exists g1, g2, t1; auto | reflexivity].
      * intros e E. inversion E. auto.
      * discriminate.
    + split; [split; discriminate |]. split; [| split].
      * split; [intros _; exists g1, g2, t1; auto | reflexivity].
      * intros e E. inversion E. auto.
      * discriminate.
  - split; [split; reflexivity |]. split; [| split].
    + split; [discriminate | intros (h1 & h2 & t & E & _); discriminate].
    + intros e E. inversion E. auto.
    + discriminate.
Qed.

(** ** [is_contiguous] and its tolerance *)



